(** * Rikuesuto: a shallow embedding of the request engine

    The development follows the TypeScript sources: the [Headers] table
    (a validated [URLSearchParams]), the [Blob] payload, the [Response]
    accessors, the [Request] constructor with its module-level defaults
    object, and [Request.exec] run against a scripted transport.

    Strings are sequences of UTF-16 code units, buffers are lists of
    bytes, sizes and offsets are integers.  A method that may throw
    returns a [result]; a method that changes its object returns the
    object afterwards.  The transport, the timers and the abort events
    belong to Node: the transport is a script of exchanges, one for each
    request sent, and a promise that only a timer or an abort event could
    still settle is reported as such. *)

From Stdlib Require Import String Ascii DecimalString.
From Stdlib Require Import List ZArith NArith Lia Bool.
From Stdlib Require Import Sorting.Sorted Sorting.Permutation.
Import ListNotations.

(** ** JavaScript strings and results *)

(** A JavaScript string is a sequence of UTF-16 code units. *)
Definition jsstring := list N.

Definition lit (s : string) : jsstring :=
  map N_of_ascii (list_ascii_of_string s).

Definition jsstring_eq_dec : forall a b : jsstring, {a = b} + {a <> b} :=
  list_eq_dec N.eq_dec.

Definition jsstring_eqb (a b : jsstring) : bool :=
  if jsstring_eq_dec a b then true else false.

(** [String.prototype.toLowerCase], code unit by code unit.  It is exact
    below 0x100, where validated header names and values lie, and for the
    Kelvin sign, the one code unit above whose lowercase is printable
    ASCII; the other code units above are left as they are, which the one
    test applied to such a string, that of the type of a blob, rejects
    either way. *)
Definition lower_unit (c : N) : N :=
  if ((65 <=? c) && (c <=? 90))%N then (c + 32)%N
  else if ((192 <=? c) && (c <=? 222) && negb (c =? 215))%N then (c + 32)%N
  else if (c =? 8490)%N then 107%N
  else c.

Definition toLowerCase (s : jsstring) : jsstring := map lower_unit s.

(** Comparison of strings by code units, as [URLSearchParams.sort] does. *)
Definition cu_compare : jsstring -> jsstring -> comparison :=
  list_compare N.compare.

Definition cu_leb (a b : jsstring) : bool :=
  match cu_compare a b with Gt => false | _ => true end.

Definition cu_lt (a b : jsstring) : Prop := cu_compare a b = Lt.

(** [Array.prototype.join]. *)
Fixpoint join (sep : jsstring) (l : list jsstring) : jsstring :=
  match l with
  | [] => []
  | [x] => x
  | x :: rest => x ++ sep ++ join sep rest
  end.

(** The order in which the own properties of an object are enumerated:
    the keys that are array indices first, by value, then the other keys
    as they were added.  The keys of [entries] are distinct. *)
Definition is_digit (c : N) : bool := ((48 <=? c) && (c <=? 57))%N.

Definition digits_value (s : jsstring) : N :=
  fold_left (fun acc c => 10 * acc + (c - 48))%N s 0%N.

Definition array_index (key : jsstring) : option N :=
  match key with
  | [] => None
  | c :: rest =>
      if forallb is_digit key
         && (negb (c =? 48)%N || match rest with [] => true | _ => false end)
         && (digits_value key <=? 4294967294)%N
      then Some (digits_value key)
      else None
  end.

Fixpoint insert_index {A} (i : N) (e : A) (l : list (N * A)) : list (N * A) :=
  match l with
  | [] => [(i, e)]
  | (j, x) :: rest =>
      if (j <=? i)%N then (j, x) :: insert_index i e rest else (i, e) :: l
  end.

Definition property_order {A} (entries : list (jsstring * A)) : list (jsstring * A) :=
  map snd
      (fold_left (fun acc e => match array_index (fst e) with
                               | Some i => insert_index i e acc
                               | None => acc
                               end) entries [])
  ++ filter (fun e => match array_index (fst e) with
                      | Some _ => false
                      | None => true
                      end) entries.

(** A computation that returns or throws. *)
Inductive result (E A : Type) : Type :=
| Ok (a : A)
| Throw (e : E).
Arguments Ok {E A} a.
Arguments Throw {E A} e.

Definition bind {E A B} (m : result E A) (k : A -> result E B) : result E B :=
  match m with
  | Ok a => k a
  | Throw e => Throw e
  end.

Notation "x <- m ;; k" := (bind m (fun x => k))
  (at level 61, m at next level, right associativity).
Notation "m ;;; k" := (bind m (fun _ => k))
  (at level 61, right associativity).

(** [Array.prototype.map] with a callback that may throw: the first
    throwing element aborts the whole map. *)
Fixpoint mapM {E A B} (f : A -> result E B) (l : list A) : result E (list B) :=
  match l with
  | [] => Ok []
  | x :: rest =>
      y <- f x ;;
      ys <- mapM f rest ;;
      Ok (y :: ys)
  end.

(** ** Headers *)

Module Headers.

(** The errors the table raises.  Both validation failures are a
    [TypeError] in the source, told apart by their [code]:
    [ERR_INVALID_HTTP_TOKEN] and [ERR_INVALID_CHAR]. *)
Inductive error : Type :=
| InvalidHeaderName (name : jsstring)
| InvalidHeaderValue (name : jsstring)
| PairNotTuple.

(** The character class of the name pattern: a word character, or one
    of caret, backquote, hyphen, exclamation mark, hash, dollar, percent,
    ampersand, double quote, asterisk, plus, dot, bar and tilde.  The
    pattern is anchored at both ends and asks for one character at
    least. *)
Definition is_word (c : N) : bool :=
  (((48 <=? c) && (c <=? 57)) || ((65 <=? c) && (c <=? 90))
   || ((97 <=? c) && (c <=? 122)) || (c =? 95))%N.

Definition is_token_char (c : N) : bool :=
  is_word c
  || existsb (N.eqb c) [94; 96; 45; 33; 35; 36; 37; 38; 34; 42; 43; 46; 124; 126]%N.

Definition is_token (name : jsstring) : bool :=
  match name with
  | [] => false
  | _ => forallb is_token_char name
  end.

Definition validateHeaderName (name : jsstring) : result error unit :=
  if is_token name then Ok tt else Throw (InvalidHeaderName name).

(** The value pattern looks for a code unit other than a tab, 0x20 to
    0x7E and 0x80 to 0xFF; a value is valid when there is none. *)
Definition is_value_char (c : N) : bool :=
  ((c =? 9) || ((32 <=? c) && (c <=? 126)) || ((128 <=? c) && (c <=? 255)))%N.

Definition is_value (value : jsstring) : bool := forallb is_value_char value.

Definition validateHeaderValue (name value : jsstring) : result error unit :=
  if is_value value then Ok tt else Throw (InvalidHeaderValue name).

(** The table is the pair list its [URLSearchParams] base holds. *)
Definition t := list (jsstring * jsstring).

Module USP.

Definition append (l : t) (name value : jsstring) : t := l ++ [(name, value)].

Definition delete (l : t) (name : jsstring) : t :=
  filter (fun p => negb (jsstring_eqb (fst p) name)) l.

Definition has (l : t) (name : jsstring) : bool :=
  existsb (fun p => jsstring_eqb (fst p) name) l.

Definition getAll (l : t) (name : jsstring) : list jsstring :=
  map snd (filter (fun p => jsstring_eqb (fst p) name) l).

(** The first pair named [name] takes the value, the others go; with
    no such pair the new one is appended. *)
Fixpoint set (l : t) (name value : jsstring) : t :=
  match l with
  | [] => [(name, value)]
  | p :: rest =>
      if jsstring_eqb (fst p) name
      then (name, value) :: delete rest name
      else p :: set rest name value
  end.

(** A stable sort of the pairs by name, in code unit order. *)
Fixpoint insert (p : jsstring * jsstring) (l : t) : t :=
  match l with
  | [] => [p]
  | q :: rest =>
      if cu_leb (fst q) (fst p) then q :: insert p rest else p :: q :: rest
  end.

Definition sort (l : t) : t := fold_left (fun acc p => insert p acc) l [].

Definition keys (l : t) : list jsstring := map fst l.

End USP.

(** [new Set(iterable)]: insertion order, later duplicates ignored. *)
Definition set_add (acc : list jsstring) (x : jsstring) : list jsstring :=
  if existsb (jsstring_eqb x) acc then acc else acc ++ [x].

Definition set_of (l : list jsstring) : list jsstring := fold_left set_add l [].

(** The methods the proxy intercepts. *)
Definition append (h : t) (name value : jsstring) : result error t :=
  validateHeaderName name ;;;
  validateHeaderValue name value ;;;
  Ok (USP.append h (toLowerCase name) value).

Definition set (h : t) (name value : jsstring) : result error t :=
  validateHeaderName name ;;;
  validateHeaderValue name value ;;;
  Ok (USP.set h (toLowerCase name) value).

Definition delete (h : t) (name : jsstring) : result error t :=
  validateHeaderName name ;;;
  Ok (USP.delete h (toLowerCase name)).

Definition has (h : t) (name : jsstring) : result error bool :=
  validateHeaderName name ;;;
  Ok (USP.has h (toLowerCase name)).

Definition getAll (h : t) (name : jsstring) : result error (list jsstring) :=
  validateHeaderName name ;;;
  Ok (USP.getAll h (toLowerCase name)).

(** [keys] sorts the target in place and then lists the distinct names:
    the pair is the table afterwards and the names returned. *)
Definition keys (h : t) : t * list jsstring :=
  let h' := USP.sort h in (h', set_of (USP.keys h')).

Definition content_encoding : jsstring := lit "content-encoding".

(** [get]: [None] is JavaScript's [null].  The name has passed
    [getAll] when the pattern is tried on it, so it is a token, and the
    pattern, which ignores case, matches when the lowercased name is the
    one below. *)
Definition get (h : t) (name : jsstring) : result error (option jsstring) :=
  values <- getAll h name ;;
  match values with
  | [] => Ok None
  | _ =>
      let value := join (lit ", ") values in
      Ok (Some (if jsstring_eqb (toLowerCase name) content_encoding
                then toLowerCase value else value))
  end.

(** The assignments [result[key] = values] on an object made by [{}]:
    under the key [__proto__] the assignment sets the prototype of the
    object and makes no property, so that key is not among the entries. *)
Definition assigned {A} (entries : list (jsstring * A)) : list (jsstring * A) :=
  filter (fun e => negb (jsstring_eqb (fst e) (lit "__proto__"))) entries.

(** [raw]: the record of every key with all its values, filled in the
    order [keys] lists them and given as its properties are enumerated;
    the table is left sorted. *)
Definition raw (h : t) : result error (t * list (jsstring * list jsstring)) :=
  let '(h', ks) := keys h in
  r <- mapM (fun k => vs <- getAll h' k ;; Ok (k, vs)) ks ;;
  Ok (h', property_order (assigned r)).

(** What the constructor accepts. *)
Inductive HeadersInit : Type :=
| InitHeaders (h : t)
| InitNull
| InitRecord (entries : list (jsstring * jsstring))
| InitIterable (pairs : list (list jsstring)).

Definition as_tuple (pair : list jsstring) : result error (jsstring * jsstring) :=
  match pair with
  | [name; value] => Ok (name, value)
  | _ => Throw PairNotTuple
  end.

Definition validate_and_lowercase (p : jsstring * jsstring)
  : result error (jsstring * jsstring) :=
  let '(name, value) := p in
  validateHeaderName name ;;;
  validateHeaderValue name value ;;;
  Ok (toLowerCase name, value).

Definition init_pairs (init : HeadersInit) : result error (list (jsstring * jsstring)) :=
  match init with
  | InitHeaders h =>
      r <- raw h ;;
      Ok (flat_map (fun e => map (fun v => (fst e, v)) (snd e)) (snd r))
  | InitNull => Ok []
  | InitRecord entries => Ok entries
  | InitIterable pairs => mapM as_tuple pairs
  end.

Definition new (init : HeadersInit) : result error t :=
  result <- init_pairs init ;;
  mapM validate_and_lowercase result.

(** [fromRawHeaders]: the flat list is cut into consecutive slices of
    two (the last one short when the length is odd), the slices that
    fail validation are filtered out, the rest is handed to the
    constructor.  A missing value reads as [undefined], which [String]
    turns into the text below. *)
Fixpoint slices (headers : list jsstring) : list (list jsstring) :=
  match headers with
  | [] => []
  | [name] => [[name]]
  | name :: value :: rest => [name; value] :: slices rest
  end.

Definition undefined_text : jsstring := lit "undefined".

Definition slice_valid (pair : list jsstring) : bool :=
  match pair with
  | [] => false
  | name :: more =>
      let value := match more with [] => undefined_text | v :: _ => v end in
      match validateHeaderName name ;;; validateHeaderValue name value with
      | Ok _ => true
      | Throw _ => false
      end
  end.

Definition fromRawHeaders (headers : list jsstring) : result error t :=
  new (InitIterable (filter slice_valid (slices headers))).

End Headers.

(** ** Blob *)

(** A byte buffer: the bytes a [Buffer] or a typed array shows. *)
Definition bytes := list N.

Module Blob.

(** The record the weak map keeps for a blob, and the parts it holds
    after normalisation. *)
Inductive t : Type :=
| mk (type : jsstring) (size : Z) (parts : list part)
with part : Type :=
| PBuffer (buf : bytes)
| PBlob (b : t).

Definition type (b : t) : jsstring := let '(mk ty _ _) := b in ty.
Definition size (b : t) : Z := let '(mk _ sz _) := b in sz.
Definition parts (b : t) : list part := let '(mk _ _ ps) := b in ps.

(** [buf.length] of a buffer part, [.size] of a blob part. *)
Definition part_size (p : part) : Z :=
  match p with
  | PBuffer buf => Z.of_nat (length buf)
  | PBlob b => size b
  end.

(** What the constructor accepts as a part. *)
Inductive BlobPart : Type :=
| InBuffer (buf : bytes)
| InView (visible : bytes)
| InArrayBuffer (content : bytes)
| InBlob (b : t)
| InString (s : jsstring).

(** [Buffer.from(string)]: the UTF-8 encoding of the code units, a
    surrogate without its partner becoming U+FFFD. *)
Definition utf8_of_code_point (c : N) : bytes :=
  if (c <? 128)%N then [c]
  else if (c <? 2048)%N then
    [192 + N.shiftr c 6; 128 + N.land c 63]%N
  else if (c <? 65536)%N then
    [224 + N.shiftr c 12; 128 + N.land (N.shiftr c 6) 63; 128 + N.land c 63]%N
  else
    [240 + N.shiftr c 18; 128 + N.land (N.shiftr c 12) 63;
     128 + N.land (N.shiftr c 6) 63; 128 + N.land c 63]%N.

Definition is_high (c : N) : bool := ((55296 <=? c) && (c <=? 56319))%N.
Definition is_low (c : N) : bool := ((56320 <=? c) && (c <=? 57343))%N.

Fixpoint utf8_encode (s : jsstring) : bytes :=
  match s with
  | [] => []
  | c :: rest =>
      if is_high c then
        match rest with
        | d :: rest' =>
            if is_low d
            then utf8_of_code_point (65536 + (c - 55296) * 1024 + (d - 56320))%N
                   ++ utf8_encode rest'
            else [239; 191; 189]%N ++ utf8_encode rest
        | [] => [239; 191; 189]%N
        end
      else if is_low c then [239; 191; 189]%N ++ utf8_encode rest
      else utf8_of_code_point c ++ utf8_encode rest
  end.

Definition normalise (p : BlobPart) : part :=
  match p with
  | InBuffer buf => PBuffer buf
  | InView visible => PBuffer visible
  | InArrayBuffer content => PBuffer content
  | InBlob b => PBlob b
  | InString s => PBuffer (utf8_encode s)
  end.

Definition is_printable (c : N) : bool := ((32 <=? c) && (c <=? 126))%N.

(** The type tag: lowercased, and emptied when a code unit is outside
    0x20 to 0x7E.  [None] is an argument left [undefined]. *)
Definition normalise_type (ty : option jsstring) : jsstring :=
  match ty with
  | None => []
  | Some s => let s' := toLowerCase s in
              if forallb is_printable s' then s' else []
  end.

Definition sum_sizes (ps : list part) : Z :=
  fold_left (fun acc p => acc + part_size p)%Z ps 0%Z.

Definition new (ps : list BlobPart) (ty : option jsstring) : t :=
  let _parts := map normalise ps in
  mk (normalise_type ty) (sum_sizes _parts) _parts.

(** [Buffer.prototype.slice]: offsets below zero count from the end,
    both are clamped to the length, an end before the start gives the
    empty buffer. *)
Definition adjustOffset (offset len : Z) : Z :=
  if (offset <? 0)%Z then Z.max (len + offset) 0 else Z.min offset len.

Definition buffer_slice (buf : bytes) (start end_ : Z) : bytes :=
  let len := Z.of_nat (length buf) in
  let s := adjustOffset start len in
  let e := adjustOffset end_ len in
  if (s <? e)%Z then firstn (Z.to_nat (e - s)) (skipn (Z.to_nat s) buf) else [].

(** The loop of [slice] over the parts.  It carries [relativeStart],
    [relativeEnd] and [added]; only a skipped part moves [relativeEnd].
    [slice_part] is [part.slice(start, end)]. *)
Definition slice_loop (slice_part : part -> Z -> Z -> part) (span : Z)
  : list part -> Z -> Z -> Z -> list part :=
  fix loop (ps : list part) (relativeStart relativeEnd added : Z)
      {struct ps} : list part :=
    match ps with
    | [] => []
    | p :: rest =>
        let size := part_size p in
        if negb (relativeStart =? 0)%Z && (size <=? relativeStart)%Z
        then loop rest (relativeStart - size)%Z (relativeEnd - size)%Z added
        else
          let chunk := slice_part p relativeStart (Z.min size relativeEnd) in
          let added := (added + part_size chunk)%Z in
          chunk :: (if (span <=? added)%Z then []
                    else loop rest 0%Z relativeEnd added)
    end.

(** [slice(start, end, type)] with its three arguments given, [start]
    and [end] integers. *)
Fixpoint slice (b : t) (start end_ : Z) (ty : jsstring) {struct b} : t :=
  match b with
  | mk _ size parts =>
      let relativeStart :=
        if (start <? 0)%Z then Z.max (size + start) 0 else Z.min start size in
      let relativeEnd :=
        if (end_ <? 0)%Z then Z.max (size + end_) 0 else Z.min end_ size in
      let span := Z.max (relativeEnd - relativeStart) 0 in
      let blobParts :=
        slice_loop
          (fun p s e =>
             match p with
             | PBuffer buf => PBuffer (buffer_slice buf s e)
             | PBlob b' => PBlob (slice b' s e [])
             end)
          span parts relativeStart relativeEnd 0%Z in
      mk (normalise_type (Some ty)) span blobParts
  end.

(** The defaults of [slice]: start 0, end [this.size], type empty. *)
Definition slice_args (b : t) (start end_ : option Z) (ty : option jsstring) : t :=
  slice b
        (match start with Some s => s | None => 0%Z end)
        (match end_ with Some e => e | None => size b end)
        (match ty with Some s => s | None => [] end).

(** [stream]: the chunks read, a buffer part as it is, a blob part
    through its own stream. *)
Fixpoint stream (b : t) : list bytes :=
  match b with
  | mk _ _ parts =>
      flat_map (fun p => match p with
                         | PBuffer buf => [buf]
                         | PBlob b' => stream b'
                         end) parts
  end.

Definition part_stream (p : part) : list bytes :=
  match p with
  | PBuffer buf => [buf]
  | PBlob b' => stream b'
  end.

Definition slice_part (p : part) (start end_ : Z) : part :=
  match p with
  | PBuffer buf => PBuffer (buffer_slice buf start end_)
  | PBlob b' => PBlob (slice b' start end_ [])
  end.

Inductive error : Type := RangeError.

(** [TypedArray.prototype.set(source, offset)]. *)
Definition typed_set (data : bytes) (chunk : bytes) (offset : nat)
  : result error bytes :=
  if (length data <? offset + length chunk)%nat then Throw RangeError
  else Ok (firstn offset data ++ chunk ++ skipn (offset + length chunk) data).

Fixpoint write_chunks (data : bytes) (offset : nat) (chunks : list bytes)
  : result error bytes :=
  match chunks with
  | [] => Ok data
  | chunk :: rest =>
      data' <- typed_set data chunk offset ;;
      write_chunks data' (offset + length chunk) rest
  end.

(** [data]: a zeroed array of [size] bytes filled chunk after chunk. *)
Definition data (b : t) : result error bytes :=
  write_chunks (repeat 0%N (Z.to_nat (size b))) 0 (stream b).

End Blob.

(** ** JSON text *)

Module JSON.

Definition MAX_SAFE_INTEGER : Z := 9007199254740991.

(** [Number.isSafeInteger] on an integer. *)
Definition isSafeInteger (z : Z) : bool := (Z.abs z <=? MAX_SAFE_INTEGER)%Z.

(** The numbers followed here: the safe integers, which a number holds
    exactly and prints with all their digits. *)
Record number : Type := {
  integer : Z;
  integer_safe : isSafeInteger integer = true
}.

Definition zero : number := {| integer := 0; integer_safe := eq_refl |}.

(** The number an integer is, when it is a safe one. *)
Definition number_of (z : Z) : option number :=
  match bool_dec (isSafeInteger z) true with
  | left H => Some {| integer := z; integer_safe := H |}
  | right _ => None
  end.

(** The number an element of a buffer is: a buffer holds its elements
    modulo 256, and these are safe. *)
Definition byte_number (b : N) : number :=
  match number_of (Z.of_N (N.land b 255)) with
  | Some n => n
  | None => zero
  end.

(** The values a plain structured body is made of.  An object is the
    list of its own enumerable properties in enumeration order; numbers
    are safe integers. *)
#[warnings="-register-all"]
Inductive value : Type :=
| JNull
| JBool (b : bool)
| JNum (n : number)
| JStr (s : jsstring)
| JArr (items : list value)
| JObj (fields : list (jsstring * value)).

Definition hex_digit (n : N) : N :=
  if (n <? 10)%N then (48 + n)%N else (87 + n)%N.

(** The escape [\uXXXX] of a code unit. *)
Definition unicode_escape (c : N) : jsstring :=
  [92; 117; hex_digit (N.shiftr c 12); hex_digit (N.land (N.shiftr c 8) 15);
   hex_digit (N.land (N.shiftr c 4) 15); hex_digit (N.land c 15)]%N.

Definition is_high (c : N) : bool := ((55296 <=? c) && (c <=? 56319))%N.
Definition is_low (c : N) : bool := ((56320 <=? c) && (c <=? 57343))%N.

Definition escape_unit (c : N) : jsstring :=
  if (c =? 8)%N then [92; 98]%N
  else if (c =? 9)%N then [92; 116]%N
  else if (c =? 10)%N then [92; 110]%N
  else if (c =? 12)%N then [92; 102]%N
  else if (c =? 13)%N then [92; 114]%N
  else if (c =? 34)%N then [92; 34]%N
  else if (c =? 92)%N then [92; 92]%N
  else if (c <? 32)%N then unicode_escape c
  else [c].

(** The body of a quoted string: a surrogate pair stays, a lone
    surrogate is escaped. *)
Fixpoint escape (s : jsstring) : jsstring :=
  match s with
  | [] => []
  | c :: rest =>
      if is_high c then
        match rest with
        | d :: rest' =>
            if is_low d then c :: d :: escape rest'
            else unicode_escape c ++ escape rest
        | [] => unicode_escape c
        end
      else if is_low c then unicode_escape c ++ escape rest
      else escape_unit c ++ escape rest
  end.

Definition quote (s : jsstring) : jsstring := [34%N] ++ escape s ++ [34%N].

(** The text of a safe integer: its digits, all of them. *)
Definition decimal (z : Z) : jsstring :=
  lit (NilZero.string_of_int (Z.to_int z)).

(** [JSON.stringify(value)] without indentation. *)
Fixpoint stringify (v : value) : jsstring :=
  match v with
  | JNull => lit "null"
  | JBool true => lit "true"
  | JBool false => lit "false"
  | JNum n => decimal (integer n)
  | JStr s => quote s
  | JArr items => lit "[" ++ join (lit ",") (map stringify items) ++ lit "]"
  | JObj fields =>
      lit "{"
      ++ join (lit ",")
           (map (fun kv => let '(k, v') := kv in
                           quote k ++ lit ":" ++ stringify v') fields)
      ++ lit "}"
  end.

(** [Buffer.prototype.toJSON]. *)
Definition of_buffer (buf : bytes) : value :=
  JObj [(lit "type", JStr (lit "Buffer"));
        (lit "data", JArr (map (fun b => JNum (byte_number b)) buf))].

End JSON.

(** ** Requests *)

Module Request.

(** The members of the [Method] enumeration. *)
Inductive Method : Type :=
| GET | POST | DELETE | PATCH | PUT | HEAD | OPTIONS | CONNECT | TRACE.

(** A URL is kept as the way it was made: parsed from a string, resolved
    from a reference against a base, or extended by
    [searchParams.append].  The [URL] constructor is taken to succeed. *)
Inductive URL : Type :=
| Parse (input : jsstring)
| Resolve (location : jsstring) (base : URL)
| Append (u : URL) (k v : jsstring).

(** The bodies followed here: [null], the primitives, a plain object
    (one that inherits from [Object.prototype]), an array, a [Buffer] and
    a [Blob]. *)
Inductive Body : Type :=
| BNull
| BBool (b : bool)
| BNumber (z : Z)
| BString (s : jsstring)
| BPlain (fields : list (jsstring * JSON.value))
| BArray (items : list JSON.value)
| BBuffer (buf : bytes)
| BBlob (b : Blob.t).

Inductive Follow : Type :=
| FBool (b : bool)
| FNum (n : Z).

Record AbortSignal : Type := { aborted : bool }.

(** An agent is only passed on; it is kept by a number. *)
Definition Agent := nat.

(** A property of an options object: not there, there as [undefined],
    or there with a value. *)
Inductive slot (A : Type) : Type :=
| Absent
| Undefined
| Val (a : A).
Arguments Absent {A}.
Arguments Undefined {A}.
Arguments Val {A} a.

(** Reading a property: [None] is [undefined]. *)
Definition read {A} (s : slot A) : option A :=
  match s with
  | Val a => Some a
  | _ => None
  end.

(** The options.  A [Headers] instance among them is taken with the
    pairs it holds when it is read. *)
Record RequestData : Type := {
  headers : slot Headers.HeadersInit;
  method : slot Method;
  query : slot (list (jsstring * jsstring));
  body : slot Body;
  timeout : slot Z;
  follow : slot Follow;
  compressData : slot bool;
  agent : slot Agent;
  signal : slot AbortSignal
}.

(** The options object [{}]. *)
Definition no_options : RequestData :=
  {| headers := Absent; method := Absent; query := Absent; body := Absent;
     timeout := Absent; follow := Absent; compressData := Absent;
     agent := Absent; signal := Absent |}.

(** The module-level object as the module defines it. *)
Definition defaultRequestOptions : RequestData :=
  {| headers := Val (Headers.InitRecord []);
     query := Val [];
     method := Val GET;
     body := Val BNull;
     follow := Val (FBool false);
     compressData := Val false;
     timeout := Absent; agent := Absent; signal := Absent |}.

Definition assign_slot {A} (target source : slot A) : slot A :=
  match source with
  | Absent => target
  | _ => source
  end.

(** [Object.assign(target, source)]: the target after the call, which is
    also the object the call returns. *)
Definition assign (target source : RequestData) : RequestData :=
  {| headers := assign_slot (headers target) (headers source);
     method := assign_slot (method target) (method source);
     query := assign_slot (query target) (query source);
     body := assign_slot (body target) (body source);
     timeout := assign_slot (timeout target) (timeout source);
     follow := assign_slot (follow target) (follow source);
     compressData := assign_slot (compressData target) (compressData source);
     agent := assign_slot (agent target) (agent source);
     signal := assign_slot (signal target) (signal source) |}.

(** A request.  Its [_options] field is not stored: the constructor
    keeps what [Object.assign] returns, which is the module-level object
    itself, so [this._options] is read from and written to the shared
    defaults that every operation below threads through. *)
Record t : Type := {
  url : URL;
  redirects : Z;
  _method : Method;
  _body : option Body;
  _signal : option AbortSignal;
  _headers : Headers.t
}.

Definition with_headers (r : t) (h : Headers.t) : t :=
  {| url := url r; redirects := redirects r; _method := _method r;
     _body := _body r; _signal := _signal r; _headers := h |}.

Definition with_redirects (r : t) (n : Z) : t :=
  {| url := url r; redirects := n; _method := _method r;
     _body := _body r; _signal := _signal r; _headers := _headers r |}.

Definition append_query (u : URL) (q : list (jsstring * jsstring)) : URL :=
  fold_left (fun acc kv => Append acc (fst kv) (snd kv)) q u.

(** The constructor, from the defaults before it to the request (or the
    error [new Headers] throws) and the defaults after it.  A string given
    as the URL is [Parse] of it. *)
Definition new (u : URL) (options defaults : RequestData)
  : result Headers.error t * RequestData :=
  let options := assign defaults options in
  (h <- Headers.new (match read (headers options) with
                     | Some init => init
                     | None => Headers.InitRecord []
                     end) ;;
   Ok {| url := match read (query options) with
                | Some q => append_query u q
                | None => u
                end;
         redirects := 0;
         _method := match read (method options) with
                    | Some m => m
                    | None => GET
                    end;
         _body := read (body options);
         _signal := read (signal options);
         _headers := h |},
   options).

(** Truthiness of the values tested by the engine. *)
Definition truthy_string (s : option jsstring) : bool :=
  match s with
  | Some (_ :: _) => true
  | _ => false
  end.

Definition truthy_body (b : option Body) : bool :=
  match b with
  | None | Some BNull => false
  | Some (BBool v) => v
  | Some (BNumber z) => negb (z =? 0)%Z
  | Some (BString s) => truthy_string (Some s)
  | Some _ => true
  end.

Definition truthy_follow (f : option Follow) : bool :=
  match f with
  | None => false
  | Some (FBool b) => b
  | Some (FNum n) => negb (n =? 0)%Z
  end.

Definition truthy_number (n : option Z) : bool :=
  match n with
  | Some z => negb (z =? 0)%Z
  | None => false
  end.

Definition truthy_bool (b : option bool) : bool :=
  match b with
  | Some v => v
  | None => false
  end.

(** The builder methods that write to [this._options], and so to the
    shared defaults. *)
Definition set_timeout (ms : Z) (defaults : RequestData) : RequestData :=
  assign defaults
    {| headers := Absent; method := Absent; query := Absent; body := Absent;
       timeout := Val ms; follow := Absent; compressData := Absent;
       agent := Absent; signal := Absent |}.

Definition set_follow (count : option Z) (defaults : RequestData) : RequestData :=
  let v := if truthy_number count
           then match count with Some n => FNum n | None => FBool false end
           else FBool (negb (truthy_follow (read (follow defaults)))) in
  assign defaults
    {| headers := Absent; method := Absent; query := Absent; body := Absent;
       timeout := Absent; follow := Val v; compressData := Absent;
       agent := Absent; signal := Absent |}.

Definition compress (defaults : RequestData) : RequestData :=
  assign defaults
    {| headers := Absent; method := Absent; query := Absent; body := Absent;
       timeout := Absent; follow := Absent;
       compressData := Val (negb (truthy_bool (read (compressData defaults))));
       agent := Absent; signal := Absent |}.

(** The builder [method], which writes to the request only. *)
Definition set_method (m : Method) (r : t) : t :=
  {| url := url r; redirects := redirects r; _method := m;
     _body := _body r; _signal := _signal r; _headers := _headers r |}.

(** [this.redirects !== this._options.follow]: a number is never
    strictly equal to a boolean or to [undefined]. *)
Definition redirects_differ (n : Z) (f : option Follow) : bool :=
  match f with
  | Some (FNum m) => negb (n =? m)%Z
  | _ => true
  end.

End Request.

(** ** Responses *)

Module Response.

(** How the body stream of a message finishes. *)
Inductive Ending : Type :=
| End
| StreamError (message : jsstring).

(** What the transport hands over for one response: Node's
    [IncomingMessage], with the chunks its stream will deliver.
    [statusCode_] is its [statusCode], which may be [undefined]. *)
Record IncomingMessage : Type := {
  statusCode_ : option Z;
  statusMessage : option jsstring;
  rawHeaders : list jsstring;
  chunks : list bytes;
  ending : Ending
}.

Record t : Type := {
  request : Request.t;
  message : IncomingMessage;
  _buf : bytes
}.

Definition statusCode (r : t) : Z :=
  match statusCode_ (message r) with
  | Some code => code
  | None => 200%Z
  end.

Definition ok (r : t) : bool :=
  (statusCode r <=? 200)%Z && (statusCode r <? 300)%Z.

(** [Buffer.concat([this._buf, data])]. *)
Definition _chunk (r : t) (data : bytes) : t :=
  {| request := request r; message := message r; _buf := _buf r ++ data |}.

Definition buffer (r : t) : bytes := _buf r.

(** [message.headers[name]] for a header of which Node keeps the first
    occurrence and drops the others, as it does for content-type: [name]
    is lowercase. *)
Definition first_header (raw : list jsstring) (name : jsstring) : option jsstring :=
  match filter (fun p => match p with
                         | n :: _ :: _ => jsstring_eqb (toLowerCase n) name
                         | _ => false
                         end) (Headers.slices raw) with
  | (_ :: v :: _) :: _ => Some v
  | _ => None
  end.

(** [blob]: the buffer as a payload of one part, typed by the content
    type of the message. *)
Definition blob (r : t) : Blob.t :=
  Blob.new [Blob.InBuffer (_buf r)]
           (Some (match first_header (rawHeaders (message r)) (lit "content-type") with
                  | Some type => type
                  | None => []
                  end)).

End Response.

(** ** The engine *)

Module Engine.

Import Request.

(** What the transport does with one request: it answers, it fails
    before any answer, or it stays silent. *)
Inductive Exchange : Type :=
| Respond (msg : Response.IncomingMessage)
| Fail (e : jsstring)
| Silent.

(** What [req.write] is handed. *)
Inductive Chunk : Type :=
| ChString (s : jsstring)
| ChArrayBuffer (content : bytes)
| ChNumber (z : Z)
| ChBool (b : bool)
| ChNull.

(** A request the engine has sent: [request(...)], the optional
    [write], and [end]. *)
Record Sent : Type := {
  sent_by : Request.t;
  sent_headers : list (jsstring * list jsstring);
  sent_body : option Chunk
}.

(** The streams [zlib] makes. *)
Inductive Transform : Type :=
| Gunzip
| Deflate.

(** The state the engine works on: the shared defaults, the requests
    sent so far, and the streams a response was piped into together with
    the bytes that flowed into each.  Nothing reads what those streams
    produce. *)
Record State : Type := {
  defaults : RequestData;
  log : list Sent;
  sinks : list (Transform * bytes)
}.

Inductive Error : Type :=
| AbortError
| TimeoutError (u : URL)
| HttpError (code : Z) (message : jsstring) (u : URL)
| TransportError (e : jsstring).

(** What a call of [exec] comes to: it throws before it makes the
    promise, or the promise is resolved, rejected, or never settled, as
    when the transport stays silent with no timeout set or a handler
    throws. *)
Inductive Outcome : Type :=
| Thrown (e : Headers.error)
| Resolved (res : Response.t)
| Rejected (e : Error)
| Pending.

(** The value [req.write] is handed for a body: every object goes
    through [JSON.stringify], a blob is then replaced by what its
    [data()] resolves to, anything else is left as it is.  [Throw] is a
    [data()] that throws. *)
Definition serialise (b : Body) : result Blob.error Chunk :=
  match b with
  | BNull => Ok ChNull
  | BBool v => Ok (ChBool v)
  | BNumber z => Ok (ChNumber z)
  | BString s => Ok (ChString s)
  | BPlain fields => Ok (ChString (JSON.stringify (JSON.JObj fields)))
  | BArray items => Ok (ChString (JSON.stringify (JSON.JArr items)))
  | BBuffer buf => Ok (ChString (JSON.stringify (JSON.of_buffer buf)))
  | BBlob b => content <- Blob.data b ;; Ok (ChArrayBuffer content)
  end.

(** The bytes a chunk holds: a string in UTF-8, the encoding [write]
    uses by default, an array buffer as it is. *)
Definition chunk_bytes (c : Chunk) : option bytes :=
  match c with
  | ChString s => Some (Blob.utf8_encode s)
  | ChArrayBuffer content => Some content
  | _ => None
  end.

(** What [req.write] takes: a string (or a buffer, as which no body
    reaches it); on anything else it throws. *)
Definition writable (c : Chunk) : bool :=
  match c with
  | ChString _ => true
  | _ => false
  end.

(** The write of [exec]: only a truthy body is written. *)
Definition written (body : option Body) : result Blob.error (option Chunk) :=
  match body with
  | Some b =>
      if truthy_body body then c <- serialise b ;; Ok (Some c) else Ok None
  | None => Ok None
  end.

(** [typeof body === "object"] on a truthy body. *)
Definition isObject (b : Body) : bool :=
  match b with
  | BNull | BPlain _ | BArray _ | BBuffer _ | BBlob _ => true
  | _ => false
  end.

(** [message.headers[name]] for a header whose repeated values Node
    joins with a comma: [name] is lowercase. *)
Definition incoming_header (raw : list jsstring) (name : jsstring)
  : option jsstring :=
  match map (fun p => match p with
                      | _ :: v :: _ => v
                      | _ => []
                      end)
            (filter (fun p => match p with
                              | n :: _ :: _ => jsstring_eqb (toLowerCase n) name
                              | _ => false
                              end) (Headers.slices raw)) with
  | [] => None
  | vs => Some (join (lit ", ") vs)
  end.

Definition pipes (compress : bool) (encoding : option jsstring)
  : list Transform :=
  if compress then
    (if match encoding with
        | Some e => jsstring_eqb e (lit "gzip")
        | None => false
        end then [Gunzip] else [])
    ++ (if match encoding with
           | Some e => jsstring_eqb e (lit "deflate")
           | None => false
           end then [Deflate] else [])
  else [].

Section Exec.

(** The version of the package, read from [package.json]. *)
Variable version : jsstring.

Definition RIKUESUTO_USER_AGENT : jsstring :=
  lit "Rikuesuto (" ++ version ++ lit ", https://github.com/melike2d/rikuesuto)".

(** The part of [exec] before the promise: the default headers.  A
    form-data body is not among the bodies followed here. *)
Definition prepare_headers (r : Request.t) : result Headers.error Headers.t :=
  let h := _headers r in
  agent <- Headers.get h (lit "user-agent") ;;
  h1 <- (if truthy_string agent then Ok h
         else Headers.set h (lit "user-agent") RIKUESUTO_USER_AGENT) ;;
  contentType <- Headers.get h1 (lit "content-type") ;;
  if negb (truthy_string contentType) && truthy_body (_body r) then
    match _body r with
    | Some b =>
        if isObject b
        then Headers.append h1 (lit "content-type") (lit "application/json")
        else Ok h1
    | None => Ok h1
    end
  else Ok h1.

(** A promise left unsettled is rejected by the timer when a timeout is
    set. *)
Definition unsettled (r : Request.t) (st : State) : Outcome :=
  if truthy_number (read (timeout (defaults st)))
  then Rejected (TimeoutError (url r))
  else Pending.

(** One run of the body of [exec] against the exchange the transport
    makes for the request it sends; [recurse] is the [exec] of the
    request a redirect constructs.  In the order of the source: the
    default headers, [request(...)] with the raw headers, the check of
    the signal, the write of the body and [end]; then the exchange, and
    on a response the pipes, the parsed headers, the redirect test, and
    either the new request or the response filled chunk by chunk.  A
    throw before the timer is set leaves the promise pending; the abort
    and timer events themselves are outside the embedding.  A write that
    throws leaves the request without its [end]: nothing of it reaches
    the transport, it is not logged, and the promise is left to the
    timer.  A stream the response is piped into is taken to go on
    accepting it, as it does at least while the message is shorter than
    what such a stream buffers; a longer one can stall the response. *)
Definition attempt (recurse : Request.t -> State -> Outcome * State)
           (ex : Exchange) (r : Request.t) (st : State) : Outcome * State :=
  match prepare_headers r with
  | Throw e => (Thrown e, st)
  | Ok h =>
  match Headers.raw h with
  | Throw _ => (Pending, st)
  | Ok (h', raw) =>
      let r := with_headers r h' in
      if match _signal r with
         | Some s => aborted s
         | None => false
         end
      then (Rejected AbortError, st)
      else
        match written (_body r) with
        | Throw _ => (unsettled r st, st)
        | Ok chunk =>
            if match chunk with
               | Some c => negb (writable c)
               | None => false
               end
            then (unsettled r st, st)
            else
            let st :=
              {| defaults := defaults st;
                 log := log st ++ [{| sent_by := r; sent_headers := raw;
                                      sent_body := chunk |}];
                 sinks := sinks st |} in
            match ex with
            | Silent => (unsettled r st, st)
            | Fail e => (Rejected (TransportError e), st)
            | Respond msg =>
                let raw_bytes := concat (Response.chunks msg) in
                let st :=
                  {| defaults := defaults st;
                     log := log st;
                     sinks :=
                       sinks st
                       ++ map (fun tr => (tr, raw_bytes))
                            (pipes (truthy_bool (read (compressData (defaults st))))
                                   (incoming_header (Response.rawHeaders msg)
                                                    (lit "content-encoding"))) |} in
                match Headers.fromRawHeaders (Response.rawHeaders msg) with
                | Throw _ => (unsettled r st, st)
                | Ok headers =>
                    match Headers.get headers (lit "Location") with
                    | Throw _ => (unsettled r st, st)
                    | Ok location =>
                        if truthy_string location
                           && truthy_follow (read (follow (defaults st)))
                           && redirects_differ (redirects r)
                                               (read (follow (defaults st)))
                        then
                          let options :=
                            assign (defaults st)
                              {| headers := Val (Headers.InitHeaders (_headers r));
                                 body := match _body r with
                                         | Some b => Val b
                                         | None => Undefined
                                         end;
                                 method := Absent; query := Absent;
                                 timeout := Absent; follow := Absent;
                                 compressData := Absent; agent := Absent;
                                 signal := Absent |} in
                          match Request.new
                                  (Resolve (match location with
                                            | Some l => l
                                            | None => []
                                            end) (url r))
                                  options (defaults st) with
                          | (Throw _, d) =>
                              let st := {| defaults := d; log := log st;
                                           sinks := sinks st |} in
                              (unsettled r st, st)
                          | (Ok req, d) =>
                              let req := with_redirects req (redirects r) in
                              let st := {| defaults := d; log := log st;
                                           sinks := sinks st |} in
                              match recurse req st with
                              | (Resolved res, st') => (Resolved res, st')
                              | (_, st') => (unsettled r st', st')
                              end
                          end
                        else
                          let res :=
                            fold_left Response._chunk (Response.chunks msg)
                              {| Response.request := r;
                                 Response.message := msg;
                                 Response._buf := [] |} in
                          match Response.ending msg with
                          | Response.End => (Resolved res, st)
                          | Response.StreamError m =>
                              (Rejected (HttpError (Response.statusCode res) m (url r)), st)
                          end
                    end
                end
            end
        end
  end
  end.

(** [exec] against the exchanges the transport will make, one for each
    request sent; with none left the transport stays silent. *)
Fixpoint exec (script : list Exchange) : Request.t -> State -> Outcome * State :=
  match script with
  | [] => attempt (fun _ st => (Pending, st)) Silent
  | ex :: rest => attempt (exec rest) ex
  end.

End Exec.

End Engine.

(** ** The client *)

Module Client.

Import Request.

(** What [make] is given as the URL: a string or a [URL]. *)
Inductive Target : Type :=
| TString (s : jsstring)
| TURL (u : URL).

(** A debug event, kept by the parts its message is made of: the number
    of the request, its method and the URL. *)
Record Debug : Type := {
  number : Z;
  sent_as : Method;
  target : Target
}.

(** A client, with the debug events it has emitted. *)
Record t : Type := {
  defaults : RequestData;
  userAgent : jsstring;
  baseUrl : option URL;
  requests : Z;
  emitted : list Debug
}.

Definition RIKUESUTO_METHODS : list Method :=
  [POST; GET; DELETE; PATCH; PUT; OPTIONS; CONNECT; TRACE].

(** [new URL(url.toString())] in the constructor of a request. *)
Definition to_url (url : Target) : URL :=
  match url with
  | TString s => Parse s
  | TURL u => u
  end.

(** The test of the pattern that asks for a leading slash. *)
Definition leading_slash (s : jsstring) : bool :=
  match s with
  | c :: _ => (c =? 47)%N
  | [] => false
  end.

Section Make.

(** The version of the package, read from [package.json]. *)
Variable version : jsstring.

(** [url.pathname], and the text a URL has in a template string. *)
Variables pathname href : URL -> jsstring.

(** The constructor, from the three properties of its options; an empty
    base URL is falsy. *)
Definition new (o_userAgent : option jsstring) (o_defaults : option RequestData)
           (o_baseUrl : option jsstring) : t :=
  {| defaults := match o_defaults with
                 | Some d => d
                 | None => no_options
                 end;
     userAgent := match o_userAgent with
                  | Some a => a
                  | None => Engine.RIKUESUTO_USER_AGENT version
                  end;
     baseUrl := match o_baseUrl with
                | Some (c :: s) => Some (Parse (c :: s))
                | _ => None
                end;
     requests := 0;
     emitted := [] |}.

(** The URL [make] goes on with when a base URL is set. *)
Definition locate (base : option URL) (url : Target) : Target :=
  match base with
  | Some b =>
      match url with
      | TURL u => TURL (Resolve (pathname u) b)
      | TString s =>
          TURL (Parse (href b ++ (if leading_slash s then s else lit "/" ++ s)))
      end
  | None => url
  end.

(** [make]: the result or the error thrown, the client and the shared
    defaults afterwards.  The options of the call are the target of
    [Object.assign], the defaults of the client its source. *)
Definition make (url : Target) (options : RequestData) (c : t)
           (shared : RequestData)
  : result Headers.error Request.t * t * RequestData :=
  let n := (requests c + 1)%Z in
  let options := assign options (defaults c) in
  let url := locate (baseUrl c) url in
  match Request.new (to_url url) options shared with
  | (Throw e, shared') =>
      (Throw e,
       {| defaults := defaults c; userAgent := userAgent c;
          baseUrl := baseUrl c; requests := n; emitted := emitted c |},
       shared')
  | (Ok req, shared') =>
      (match userAgent c with
       | _ :: _ =>
           h <- Headers.append (_headers req) (lit "user-agent") (userAgent c) ;;
           Ok (with_headers req h)
       | [] => Ok req
       end,
       {| defaults := defaults c; userAgent := userAgent c;
          baseUrl := baseUrl c; requests := n;
          emitted := emitted c
                     ++ [{| number := n; sent_as := _method req; target := url |}] |},
       shared')
  end.

(** The method [this[method]] of a client: [make], then the builder
    [method], then [exec] against the exchanges of the transport. *)
Definition shorthand (script : list Engine.Exchange) (m : Method)
           (path : jsstring) (options : RequestData) (c : t) (st : Engine.State)
  : Engine.Outcome * t * Engine.State :=
  match make (TString path) options c (Engine.defaults st) with
  | (Throw e, c', shared') =>
      (Engine.Thrown e, c',
       {| Engine.defaults := shared'; Engine.log := Engine.log st;
          Engine.sinks := Engine.sinks st |})
  | (Ok req, c', shared') =>
      let (o, st') :=
        Engine.exec version script (set_method m req)
                    {| Engine.defaults := shared'; Engine.log := Engine.log st;
                       Engine.sinks := Engine.sinks st |} in
      (o, c', st')
  end.

End Make.

End Client.

(** ** The vocabulary of the statements *)

Section HeaderTerms.

Import Headers.

(** The order the sort leaves the pairs in. *)
Definition name_le (p q : jsstring * jsstring) : Prop :=
  cu_leb (fst p) (fst q) = true.

Definition valid_pair (p : jsstring * jsstring) : bool :=
  is_token (fst p) && is_value (snd p).

Definition lowercase_name (p : jsstring * jsstring) : jsstring * jsstring :=
  (toLowerCase (fst p), snd p).

(** Appending a sequence of headers one after the other. *)
Fixpoint append_all (h : t) (ins : list (jsstring * jsstring)) : result error t :=
  match ins with
  | [] => Ok h
  | p :: rest => h1 <- append h (fst p) (snd p) ;; append_all h1 rest
  end.

Definition tuple (p : jsstring * jsstring) : list jsstring := [fst p; snd p].

(** The flat list a transport delivers for a sequence of pairs. *)
Definition flatten (pairs : list (jsstring * jsstring)) : list jsstring :=
  flat_map tuple pairs.

End HeaderTerms.

Section BlobTerms.

Import Blob.

(** A property of the blob parts of a payload. *)
Definition part_holds (P : t -> Prop) (p : part) : Prop :=
  match p with
  | PBuffer _ => True
  | PBlob b => P b
  end.

(** The size invariant, at every level of nesting. *)
Fixpoint wf (b : t) : Prop :=
  match b with
  | mk _ sz ps =>
      sz = sum_sizes ps
      /\ fold_right (fun p acc => match p with
                                  | PBuffer _ => True
                                  | PBlob b' => wf b'
                                  end /\ acc) True ps
  end.

Definition wf_part (p : part) : Prop := part_holds wf p.

(** The bytes the chunks of a payload, or of a part, make up. *)
Definition content (b : t) : bytes := concat (stream b).
Definition part_content (p : part) : bytes := concat (part_stream p).

(** What slicing a part from 0 to its size must give for the loop to
    copy the parts. *)
Definition copies (sp : part -> Z -> Z -> part) (p : part) : Prop :=
  part_size (sp p 0%Z (part_size p)) = part_size p
  /\ part_content (sp p 0%Z (part_size p)) = part_content p.

End BlobTerms.

Section EngineTerms.

Import Request Engine.

(** What one run adds to the log: requests that carry the counter of the
    request [exec] was called on, the first of them with the body chunk
    that [written] computes. *)
Definition extends (r : Request.t) (before after : list Sent) : Prop :=
  exists new,
    after = before ++ new
    /\ Forall (fun s => redirects (sent_by s) = redirects r) new
    /\ match new with
       | [] => True
       | s :: _ => written (_body r) = Ok (sent_body s)
       end.

(** The bytes a request sent has written to the transport, if any. *)
Definition bytes_written (s : Sent) : option bytes :=
  match sent_body s with
  | Some c => chunk_bytes c
  | None => None
  end.



(** The buffer of a resolved response is the chunks of its message. *)
Definition raw_buffer (o : Outcome) : Prop :=
  match o with
  | Resolved res =>
      Response._buf res = concat (Response.chunks (Response.message res))
  | _ => True
  end.

End EngineTerms.

Section HeaderInvariantTerms.

Import Headers.

(** A pair as the table stores it: a token in lowercase with a valid
    value. *)
Definition stored (p : jsstring * jsstring) : Prop :=
  is_token (fst p) = true
  /\ toLowerCase (fst p) = fst p
  /\ is_value (snd p) = true.

Definition valid_table (h : t) : Prop := Forall stored h.

(** Two names the table does not tell apart. *)
Definition same_name (a b : jsstring) : bool :=
  jsstring_eqb (toLowerCase a) (toLowerCase b).

(** The pairs the constructor reads off the record of a table. *)
Definition record_pairs (r : list (jsstring * list jsstring)) : t :=
  flat_map (fun e => map (fun v => (fst e, v)) (snd e)) r.

End HeaderInvariantTerms.

Section BlobMoreTerms.

Import Blob.

(** The bytes a part given to the constructor stands for. *)
Definition input_bytes (p : BlobPart) : bytes :=
  match p with
  | InBuffer buf => buf
  | InView visible => visible
  | InArrayBuffer content => content
  | InBlob b => concat (stream b)
  | InString s => utf8_encode s
  end.

(** A part given to the constructor whose payload, if it is one, keeps
    the size invariant. *)
Definition input_wf (p : BlobPart) : Prop :=
  match p with
  | InBlob b => wf b
  | _ => True
  end.

(** An offset brought into the range from 0 to [size], as [slice] does
    with [start] and [end]. *)
Definition clamp (size offset : Z) : Z :=
  if (offset <? 0)%Z then Z.max (size + offset) 0 else Z.min offset size.

Definition is_capital (c : N) : bool := ((65 <=? c) && (c <=? 90))%N.

End BlobMoreTerms.

Section EngineMoreTerms.

Import Request Engine.

(** The method a request constructed without one takes from the
    options. *)
Definition options_method (d : RequestData) : Method :=
  match read (method d) with
  | Some m => m
  | None => GET
  end.

(** What one run sends: first the request it was called on, then the
    requests made for redirects, which carry its body and the method of
    the options. *)
Definition hops (r : Request.t) (d : RequestData) (new : list Sent) : Prop :=
  match new with
  | [] => True
  | first :: more =>
      _method (sent_by first) = _method r
      /\ _body (sent_by first) = _body r
      /\ Forall (fun s => _method (sent_by s) = options_method d
                          /\ _body (sent_by s) = _body r) more
  end.

(** A request sent names its agent, and its content type when its body
    is an object. *)
Definition announced (s : Sent) : Prop :=
  In (lit "user-agent") (map fst (sent_headers s))
  /\ match _body (sent_by s) with
     | Some b =>
         truthy_body (Some b) = true -> isObject b = true ->
         In (lit "content-type") (map fst (sent_headers s))
     | None => True
     end.

(** What a rejection says about the call that was rejected. *)
Definition rejection_of (script : list Exchange) (r : Request.t) (e : Error) : Prop :=
  match e with
  | AbortError => exists s, _signal r = Some s /\ aborted s = true
  | TimeoutError u => u = url r
  | HttpError code m u =>
      u = url r
      /\ exists msg rest,
          script = Respond msg :: rest
          /\ Response.ending msg = Response.StreamError m
          /\ code = match Response.statusCode_ msg with
                    | Some c => c
                    | None => 200%Z
                    end
  | TransportError x => exists rest, script = Fail x :: rest
  end.

(** What one run leaves in the state: the method of the options as it
    was, and a log extended by the first request and its hops. *)
Definition hops_after (r : Request.t) (st st' : State) : Prop :=
  method (defaults st') = method (defaults st)
  /\ exists new, log st' = log st ++ new /\ hops r (defaults st) new.

End EngineMoreTerms.

Section ClientTerms.

Import Request.

Variables pathname href : URL -> jsstring.

(** What the constructor of a request hands to [new Headers]: the
    headers of its options, or [{}]. *)
Definition headers_init (d : RequestData) : Headers.HeadersInit :=
  match read (headers d) with
  | Some init => init
  | None => Headers.InitRecord []
  end.

(** A sequence of calls of [make], each with its URL and its options, on
    the client and the shared defaults the call before has left. *)
Definition make_all (calls : list (Client.Target * RequestData))
           (c : Client.t) (shared : RequestData) : Client.t * RequestData :=
  fold_left (fun s call =>
               let '(_, c', shared') :=
                 Client.make pathname href (fst call) (snd call) (fst s) (snd s) in
               (c', shared'))
            calls (c, shared).

(** The counter is not negative, and the numbers of the debug events
    grow and lie between 1 and the counter. *)
Definition numbered (c : Client.t) : Prop :=
  (0 <= Client.requests c)%Z
  /\ StronglySorted Z.lt (map Client.number (Client.emitted c))
  /\ Forall (fun ev => (1 <= Client.number ev <= Client.requests c)%Z)
            (Client.emitted c).

(** What a shorthand sends: the first request with the method of the
    shorthand, the requests made for redirects with the method [m]. *)
Definition first_only (m0 m : Method) (new : list Engine.Sent) : Prop :=
  match new with
  | [] => True
  | first :: more =>
      _method (Engine.sent_by first) = m0
      /\ Forall (fun s => _method (Engine.sent_by s) = m) more
  end.

End ClientTerms.

(** ** Examples *)

Section Examples.

Import Request.

Definition example_url : URL := Parse (lit "http://example.com/").

Definition example_request : Request.t :=
  {| url := example_url; redirects := 0; _method := GET; _body := Some BNull;
     _signal := None; _headers := [(lit "user-agent", lit "test")] |}.

(** A response with the given status and no body. *)
Definition with_status (code : Z) : Response.t :=
  {| Response.request := example_request;
     Response.message :=
       {| Response.statusCode_ := Some code; Response.statusMessage := None;
          Response.rawHeaders := []; Response.chunks := [];
          Response.ending := Response.End |};
     Response._buf := [] |}.

Definition two_buffers : Blob.t :=
  Blob.new [Blob.InBuffer [1; 2; 3]%N; Blob.InBuffer [4; 5; 6]%N] None.

Definition short_and_long : Blob.t :=
  Blob.new [Blob.InBuffer [1; 2; 3]%N; Blob.InBuffer [4; 5; 6; 7; 8]%N] None.

End Examples.

Section EngineExamples.

Import Request Engine.

Definition redirect_to_next : Response.IncomingMessage :=
  {| Response.statusCode_ := Some 302%Z; Response.statusMessage := None;
     Response.rawHeaders := [lit "Location"; lit "/next"];
     Response.chunks := []; Response.ending := Response.End |}.

Definition final_ok : Response.IncomingMessage :=
  {| Response.statusCode_ := Some 200%Z; Response.statusMessage := None;
     Response.rawHeaders := [lit "Content-Type"; lit "text/plain"];
     Response.chunks := [[104; 105]%N]; Response.ending := Response.End |}.

Definition test_agent : Headers.HeadersInit :=
  Headers.InitRecord [(lit "User-Agent", lit "test")].

(** Options asking to follow at most three redirects. *)
Definition cap_three : RequestData :=
  {| headers := Val test_agent; method := Absent; query := Absent;
     body := Absent; timeout := Absent; follow := Val (FNum 3);
     compressData := Absent; agent := Absent; signal := Absent |}.

Definition capped_defaults : RequestData :=
  {| headers := Val test_agent; method := Val GET; query := Val [];
     body := Val BNull; timeout := Absent; follow := Val (FNum 3);
     compressData := Val false; agent := Absent; signal := Absent |}.

(** Five redirects and then the answer. *)
Definition five_redirects : list Exchange :=
  map Respond [redirect_to_next; redirect_to_next; redirect_to_next;
               redirect_to_next; redirect_to_next; final_ok].

(** The gzip stream of the text [hi], delivered in two chunks. *)
Definition gzip_hi : list bytes :=
  [[31; 139; 8; 0; 0; 0; 0; 0; 2; 3; 203; 200]%N;
   [4; 0; 172; 42; 147; 216; 2; 0; 0; 0]%N].

Definition gzip_response : Response.IncomingMessage :=
  {| Response.statusCode_ := Some 200%Z; Response.statusMessage := None;
     Response.rawHeaders := [lit "Content-Encoding"; lit "gzip"];
     Response.chunks := gzip_hi; Response.ending := Response.End |}.

Definition compressing : RequestData :=
  {| headers := Val test_agent; method := Absent; query := Absent;
     body := Absent; timeout := Absent; follow := Absent;
     compressData := Val true; agent := Absent; signal := Absent |}.

Definition compressing_defaults : RequestData :=
  {| headers := Val test_agent; method := Val GET; query := Val [];
     body := Val BNull; timeout := Absent; follow := Val (FBool false);
     compressData := Val true; agent := Absent; signal := Absent |}.

(** Options asking to post a text. *)
Definition posting : RequestData :=
  {| headers := Absent; method := Val POST; query := Absent;
     body := Val (BString (lit "x")); timeout := Absent; follow := Absent;
     compressData := Absent; agent := Absent; signal := Absent |}.

Definition fresh (d : RequestData) : State :=
  {| defaults := d; log := []; sinks := [] |}.

(** A request posting the buffer 1,2,3. *)
Definition buffer_post : Request.t :=
  {| url := example_url; redirects := 0; _method := POST;
     _body := Some (BBuffer [1; 2; 3]%N); _signal := None;
     _headers := [(lit "user-agent", lit "test")] |}.


(** The text of the JSON form of the buffer 1,2,3, an object with the
    properties [type] and [data]. *)
Definition buffer_json_text : jsstring :=
  [123; 34; 116; 121; 112; 101; 34; 58; 34; 66; 117; 102; 102; 101; 114; 34;
   44; 34; 100; 97; 116; 97; 34; 58; 91; 49; 44; 50; 44; 51; 93; 125]%N.

End EngineExamples.

(** ** Facts about strings and the order on them *)

Lemma jsstring_eqb_eq (a b : jsstring) : jsstring_eqb a b = true <-> a = b.
Proof.
  unfold jsstring_eqb. destruct (jsstring_eq_dec a b); split; congruence.
Qed.

Lemma jsstring_eqb_refl (a : jsstring) : jsstring_eqb a a = true.
Proof. now apply jsstring_eqb_eq. Qed.

Lemma jsstring_eqb_neq (a b : jsstring) : jsstring_eqb a b = false <-> a <> b.
Proof.
  unfold jsstring_eqb. destruct (jsstring_eq_dec a b); split; congruence.
Qed.

Lemma existsb_eqb_In (x : jsstring) (l : list jsstring) :
  existsb (jsstring_eqb x) l = true <-> In x l.
Proof.
  rewrite existsb_exists. split.
  - intros (y & Hy & E). apply jsstring_eqb_eq in E. now subst.
  - intros H. exists x. split; [assumption | apply jsstring_eqb_refl].
Qed.

Lemma N_compare_trans (x y z : N) (c : comparison) :
  N.compare x y = c -> N.compare y z = c -> N.compare x z = c.
Proof.
  destruct c; intros H1 H2.
  - apply N.compare_eq_iff in H1, H2. apply N.compare_eq_iff. congruence.
  - rewrite N.compare_lt_iff in *. lia.
  - rewrite N.compare_gt_iff in *. lia.
Qed.

Lemma cu_compare_eq (a b : jsstring) : cu_compare a b = Eq <-> a = b.
Proof. apply list_compare_refl, N.compare_eq_iff. Qed.

Lemma cu_compare_antisym (a b : jsstring) :
  cu_compare b a = CompOpp (cu_compare a b).
Proof.
  apply list_compare_antisym.
  - apply N.compare_eq_iff.
  - intros x y. apply N.compare_antisym.
Qed.

Lemma cu_compare_trans (a b c : jsstring) (r : comparison) :
  cu_compare a b = r -> cu_compare b c = r -> cu_compare a c = r.
Proof.
  apply list_compare_trans.
  - apply N.compare_eq_iff.
  - apply N_compare_trans.
  - intros x y. apply N.compare_antisym.
Qed.

Lemma cu_lt_irrefl (a : jsstring) : ~ cu_lt a a.
Proof.
  unfold cu_lt. rewrite (proj2 (cu_compare_eq a a) eq_refl). discriminate.
Qed.

Lemma cu_lt_trans (a b c : jsstring) : cu_lt a b -> cu_lt b c -> cu_lt a c.
Proof. apply cu_compare_trans. Qed.

Lemma cu_leb_total (a b : jsstring) : cu_leb a b = true \/ cu_leb b a = true.
Proof.
  unfold cu_leb. rewrite (cu_compare_antisym a b).
  destruct (cu_compare a b); simpl; auto.
Qed.

Lemma cu_leb_lt_or_eq (a b : jsstring) :
  cu_leb a b = true <-> cu_lt a b \/ a = b.
Proof.
  unfold cu_leb, cu_lt. rewrite <- cu_compare_eq.
  destruct (cu_compare a b); split; intros H; auto; try discriminate;
    destruct H; discriminate.
Qed.

Lemma cu_leb_trans (a b c : jsstring) :
  cu_leb a b = true -> cu_leb b c = true -> cu_leb a c = true.
Proof.
  rewrite !cu_leb_lt_or_eq. intros [H1 | ->] [H2 | ->]; auto.
  left. eapply cu_lt_trans; eassumption.
Qed.

Lemma cu_leb_false_lt (a b : jsstring) : cu_leb a b = false -> cu_lt b a.
Proof.
  unfold cu_leb, cu_lt. rewrite (cu_compare_antisym a b).
  destruct (cu_compare a b); simpl; congruence.
Qed.

(** ** The sort behind [keys] *)

Section SortFacts.

Import Headers.

Lemma insert_perm (p : jsstring * jsstring) (l : t) :
  Permutation (USP.insert p l) (p :: l).
Proof.
  induction l as [| q rest IH]; simpl.
  - apply Permutation_refl.
  - destruct (cu_leb (fst q) (fst p)).
    + rewrite IH. apply perm_swap.
    + apply Permutation_refl.
Qed.

Lemma insert_sorted (p : jsstring * jsstring) (l : t) :
  StronglySorted name_le l -> StronglySorted name_le (USP.insert p l).
Proof.
  induction 1 as [| q rest Hs IH Hq]; simpl.
  - constructor; constructor.
  - destruct (cu_leb (fst q) (fst p)) eqn:E.
    + constructor; [exact IH |].
      rewrite Forall_forall in *. intros x Hx.
      apply (Permutation_in _ (insert_perm p rest)) in Hx.
      destruct Hx as [<- | Hx]; [exact E | now apply Hq].
    + assert (Hpq : name_le p q).
      { apply cu_leb_lt_or_eq. left. now apply cu_leb_false_lt. }
      constructor; [now constructor |].
      constructor; [exact Hpq |].
      rewrite Forall_forall in *. intros x Hx.
      eapply cu_leb_trans; [exact Hpq | now apply Hq].
Qed.

Lemma fold_insert_sorted (l acc : t) :
  StronglySorted name_le acc ->
  StronglySorted name_le (fold_left (fun a p => USP.insert p a) l acc).
Proof.
  revert acc. induction l as [| p rest IH]; intros acc H; simpl.
  - exact H.
  - apply IH, insert_sorted, H.
Qed.

Lemma fold_insert_perm (l acc : t) :
  Permutation (fold_left (fun a p => USP.insert p a) l acc) (l ++ acc).
Proof.
  revert acc. induction l as [| p rest IH]; intros acc; simpl.
  - apply Permutation_refl.
  - rewrite IH, insert_perm. apply Permutation_sym, Permutation_middle.
Qed.

Lemma sort_sorted (l : t) : StronglySorted name_le (USP.sort l).
Proof. apply fold_insert_sorted. constructor. Qed.

Lemma sort_perm (l : t) : Permutation (USP.sort l) l.
Proof.
  unfold USP.sort. rewrite fold_insert_perm. now rewrite app_nil_r.
Qed.

Lemma sorted_names (l : t) :
  StronglySorted name_le l ->
  StronglySorted (fun a b => cu_leb a b = true) (map fst l).
Proof.
  induction 1 as [| q rest Hs IH Hq]; simpl; constructor.
  - exact IH.
  - rewrite Forall_map. exact Hq.
Qed.

(** The set built from a list: membership, distinctness, order. *)
Lemma fold_set_add_In (l acc : list jsstring) (x : jsstring) :
  In x (fold_left set_add l acc) <-> In x acc \/ In x l.
Proof.
  revert acc. induction l as [| y rest IH]; intros acc; simpl.
  - tauto.
  - rewrite IH. unfold set_add.
    destruct (existsb (jsstring_eqb y) acc) eqn:E.
    + apply existsb_eqb_In in E. split; [tauto |].
      intros [H | [<- | H]]; auto.
    + rewrite in_app_iff. simpl. tauto.
Qed.

Lemma fold_set_add_NoDup (l acc : list jsstring) :
  NoDup acc -> NoDup (fold_left set_add l acc).
Proof.
  revert acc. induction l as [| y rest IH]; intros acc H; simpl.
  - exact H.
  - apply IH. unfold set_add.
    destruct (existsb (jsstring_eqb y) acc) eqn:E; [exact H |].
    apply NoDup_app; [exact H | repeat constructor; intros [] |].
    intros a Ha [<- | []].
    apply existsb_eqb_In in Ha. congruence.
Qed.

Lemma StronglySorted_snoc (R : jsstring -> jsstring -> Prop)
      (acc : list jsstring) (x : jsstring) :
  StronglySorted R acc -> Forall (fun a => R a x) acc ->
  StronglySorted R (acc ++ [x]).
Proof.
  induction 1 as [| a rest Hs IH Ha]; intros Hx; simpl.
  - repeat constructor.
  - inversion Hx; subst. constructor; [now apply IH |].
    apply Forall_app. split; [exact Ha | now constructor].
Qed.

Lemma fold_set_add_sorted (l acc : list jsstring) :
  StronglySorted (fun a b => cu_leb a b = true) l ->
  StronglySorted cu_lt acc ->
  Forall (fun a => Forall (fun b => cu_leb a b = true) l) acc ->
  StronglySorted cu_lt (fold_left set_add l acc).
Proof.
  revert acc. induction l as [| y rest IH]; intros acc Hl Hacc Hle; simpl.
  - exact Hacc.
  - inversion Hl as [| ? ? Hrest Hy]; subst.
    apply IH; [exact Hrest | |]; unfold set_add;
      destruct (existsb (jsstring_eqb y) acc) eqn:E.
    + exact Hacc.
    + apply StronglySorted_snoc; [exact Hacc |].
      rewrite Forall_forall in *. intros a Ha.
      specialize (Hle a Ha). inversion Hle as [| ? ? Hay _]; subst.
      apply cu_leb_lt_or_eq in Hay. destruct Hay as [Hlt | ->]; [exact Hlt |].
      apply existsb_eqb_In in Ha. congruence.
    + rewrite Forall_forall in *. intros a Ha.
      specialize (Hle a Ha). now inversion Hle.
    + apply Forall_app. split.
      * rewrite Forall_forall in *. intros a Ha.
        specialize (Hle a Ha). now inversion Hle.
      * repeat constructor. exact Hy.
Qed.

(** Two strictly sorted lists with the same elements are the same list. *)
Lemma strictly_sorted_unique (l1 l2 : list jsstring) :
  StronglySorted cu_lt l1 -> StronglySorted cu_lt l2 ->
  (forall x, In x l1 <-> In x l2) -> l1 = l2.
Proof.
  intros H1. revert l2. induction H1 as [| a r1 Hs1 IH Ha]; intros l2 H2 Hin.
  - destruct l2 as [| b r2]; [reflexivity |].
    exfalso. apply (proj2 (Hin b)). now left.
  - destruct H2 as [| b r2 Hs2 Hb].
    + exfalso. apply (proj1 (Hin a)). now left.
    + rewrite Forall_forall in Ha, Hb.
      assert (a = b) as <-.
      { destruct (proj1 (Hin a) (or_introl eq_refl)) as [E | Hab]; [congruence |].
        destruct (proj2 (Hin b) (or_introl eq_refl)) as [E | Hba]; [congruence |].
        exfalso. apply (cu_lt_irrefl a).
        eapply cu_lt_trans; [apply Ha, Hba | apply Hb, Hab]. }
      f_equal. apply IH; [exact Hs2 |].
      intros x. split; intros Hx.
      * destruct (proj1 (Hin x) (or_intror Hx)) as [<- | H]; [| exact H].
        exfalso. apply (cu_lt_irrefl _ (Ha _ Hx)).
      * destruct (proj2 (Hin x) (or_intror Hx)) as [<- | H]; [| exact H].
        exfalso. apply (cu_lt_irrefl _ (Hb _ Hx)).
Qed.

End SortFacts.

(** ** Properties of the header table *)

Section HeaderFacts.

Import Headers.

Lemma append_all_Ok (ins : list (jsstring * jsstring)) (h h1 : t) :
  append_all h ins = Ok h1 -> h1 = h ++ map lowercase_name ins.
Proof.
  revert h. induction ins as [| p rest IH]; intros h; simpl.
  - intros [= <-]. now rewrite app_nil_r.
  - unfold append, validateHeaderName, validateHeaderValue.
    destruct (is_token (fst p)); simpl; [| discriminate].
    destruct (is_value (snd p)); simpl; [| discriminate].
    intros H. apply IH in H. subst h1.
    unfold USP.append. now rewrite <- app_assoc.
Qed.

Lemma keys_spec (h : t) :
  StronglySorted cu_lt (snd (keys h)) /\ NoDup (snd (keys h))
  /\ forall n, In n (snd (keys h)) <-> In n (map fst h).
Proof.
  unfold keys, set_of, USP.keys. simpl. repeat split.
  - apply fold_set_add_sorted; [apply sorted_names, sort_sorted | constructor | constructor].
  - apply fold_set_add_NoDup. constructor.
  - rewrite fold_set_add_In. intros [[] | H].
    eapply Permutation_in; [apply Permutation_map, sort_perm | exact H].
  - intros H. apply fold_set_add_In. right.
    eapply Permutation_in; [apply Permutation_map, Permutation_sym, sort_perm | exact H].
Qed.

Lemma keys_perm (h h' : t) :
  Permutation h h' -> snd (keys h') = snd (keys h).
Proof.
  intros Hp.
  destruct (keys_spec h) as (S1 & _ & I1), (keys_spec h') as (S2 & _ & I2).
  apply strictly_sorted_unique; [exact S2 | exact S1 |].
  intros x. rewrite I1, I2. split; apply Permutation_in, Permutation_map;
    [now apply Permutation_sym | exact Hp].
Qed.

Lemma mapM_validate_valid (l : list (jsstring * jsstring)) :
  forallb valid_pair l = true ->
  mapM validate_and_lowercase l = Ok (map lowercase_name l).
Proof.
  induction l as [| [n v] rest IH]; simpl; [reflexivity |].
  unfold valid_pair at 1. simpl. rewrite !andb_true_iff.
  intros [[Hn Hv] Hrest].
  unfold validateHeaderName, validateHeaderValue. rewrite Hn, Hv. simpl.
  now rewrite (IH Hrest).
Qed.

Lemma mapM_validate_bad_name (before after : list (jsstring * jsstring))
      (name value : jsstring) :
  forallb valid_pair before = true -> is_token name = false ->
  mapM validate_and_lowercase (before ++ (name, value) :: after)
  = Throw (InvalidHeaderName name).
Proof.
  intros Hb Hn. induction before as [| [n v] rest IH]; simpl.
  - unfold validateHeaderName. now rewrite Hn.
  - simpl in Hb. unfold valid_pair at 1 in Hb. simpl in Hb.
    rewrite !andb_true_iff in Hb. destruct Hb as [[Hn' Hv'] Hrest].
    unfold validateHeaderName, validateHeaderValue. rewrite Hn', Hv'. simpl.
    now rewrite (IH Hrest).
Qed.

Lemma mapM_as_tuple (l : list (jsstring * jsstring)) :
  mapM as_tuple (map tuple l) = Ok l.
Proof.
  induction l as [| [n v] rest IH]; simpl; [reflexivity |].
  now rewrite IH.
Qed.

Lemma slices_flatten (pairs : list (jsstring * jsstring)) :
  slices (flatten pairs) = map tuple pairs.
Proof.
  induction pairs as [| [n v] rest IH]; simpl; [reflexivity |].
  now rewrite IH.
Qed.

Lemma slice_valid_tuple (p : jsstring * jsstring) :
  slice_valid (tuple p) = valid_pair p.
Proof.
  destruct p as [n v]. unfold slice_valid, valid_pair, tuple. simpl.
  unfold validateHeaderName, validateHeaderValue.
  destruct (is_token n), (is_value v); reflexivity.
Qed.

Lemma filter_map_tuple (pairs : list (jsstring * jsstring)) :
  filter slice_valid (map tuple pairs) = map tuple (filter valid_pair pairs).
Proof.
  induction pairs as [| p rest IH]; [reflexivity |].
  cbn [map filter]. rewrite slice_valid_tuple, IH.
  now destruct (valid_pair p).
Qed.

Lemma forallb_filter (A : Type) (f : A -> bool) (l : list A) :
  forallb f (filter f l) = true.
Proof.
  induction l as [| x rest IH]; simpl; [reflexivity |].
  destruct (f x) eqn:E; simpl; [now rewrite E |]; exact IH.
Qed.

End HeaderFacts.

(** C9.  Whatever table one starts from and in whatever order further
    headers are appended to it, [keys] lists the names in strictly
    increasing code unit order, each of them once: the names already in the
    table and the lowercased names of the appended headers, and nothing
    else; two orders of insertion give the same list. *)
Theorem keys_sorted_distinct
        (h0 h h' : Headers.t) (ins ins' : list (jsstring * jsstring))
        (Hperm : Permutation ins ins')
        (Hins : append_all h0 ins = Ok h)
        (Hins' : append_all h0 ins' = Ok h') :
  StronglySorted cu_lt (snd (Headers.keys h))
  /\ NoDup (snd (Headers.keys h))
  /\ (forall n, In n (snd (Headers.keys h))
                <-> In n (map fst h0) \/ In n (map (fun p => toLowerCase (fst p)) ins))
  /\ snd (Headers.keys h') = snd (Headers.keys h).
Proof.
  apply append_all_Ok in Hins, Hins'. subst h h'.
  destruct (keys_spec (h0 ++ map lowercase_name ins)) as (S & D & I).
  repeat split; try assumption.
  - intros H. apply I in H. rewrite map_app, in_app_iff, map_map in H. exact H.
  - intros H. apply I. rewrite map_app, in_app_iff, map_map. exact H.
  - apply keys_perm, Permutation_app_head, Permutation_map, Hperm.
Qed.

Lemma keys_sorted_distinct_witness :
  Permutation [(lit "X-B", lit "1"); (lit "x-a", lit "2"); (lit "x-b", lit "3")]
              [(lit "x-a", lit "2"); (lit "X-B", lit "1"); (lit "x-b", lit "3")]
  /\ append_all [] [(lit "X-B", lit "1"); (lit "x-a", lit "2"); (lit "x-b", lit "3")]
     = Ok [(lit "x-b", lit "1"); (lit "x-a", lit "2"); (lit "x-b", lit "3")]
  /\ append_all [] [(lit "x-a", lit "2"); (lit "X-B", lit "1"); (lit "x-b", lit "3")]
     = Ok [(lit "x-a", lit "2"); (lit "x-b", lit "1"); (lit "x-b", lit "3")]
  /\ snd (Headers.keys [(lit "x-a", lit "2"); (lit "x-b", lit "1"); (lit "x-b", lit "3")])
     = snd (Headers.keys [(lit "x-b", lit "1"); (lit "x-a", lit "2"); (lit "x-b", lit "3")])
  /\ snd (Headers.keys [(lit "x-b", lit "1"); (lit "x-a", lit "2"); (lit "x-b", lit "3")])
     = [lit "x-a"; lit "x-b"].
Proof.
  assert (P : Permutation
                [(lit "X-B", lit "1"); (lit "x-a", lit "2"); (lit "x-b", lit "3")]
                [(lit "x-a", lit "2"); (lit "X-B", lit "1"); (lit "x-b", lit "3")])
    by apply perm_swap.
  split; [exact P |].
  split; [vm_compute; reflexivity |].
  split; [vm_compute; reflexivity |].
  split; [| vm_compute; reflexivity].
  refine (proj2 (proj2 (proj2
    (keys_sorted_distinct [] _ _ _ _ P _ _)))); vm_compute; reflexivity.
Defined.

(** C7.  A name that is no HTTP token makes [append], [set], [delete],
    [has] and [getAll] throw the invalid-name error on any table, and makes
    the constructor throw it for a record or a sequence of pairs in which
    the pair carrying the name is the first one that fails validation. *)
Theorem invalid_name_rejected (name : jsstring)
        (Hname : Headers.is_token name = false) :
  (forall h value, Headers.append h name value = Throw (Headers.InvalidHeaderName name))
  /\ (forall h value, Headers.set h name value = Throw (Headers.InvalidHeaderName name))
  /\ (forall h, Headers.delete h name = Throw (Headers.InvalidHeaderName name))
  /\ (forall h, Headers.has h name = Throw (Headers.InvalidHeaderName name))
  /\ (forall h, Headers.getAll h name = Throw (Headers.InvalidHeaderName name))
  /\ (forall before value after, forallb valid_pair before = true ->
        Headers.new (Headers.InitRecord (before ++ (name, value) :: after))
        = Throw (Headers.InvalidHeaderName name))
  /\ (forall before value after, forallb valid_pair before = true ->
        Headers.new (Headers.InitIterable (map tuple (before ++ (name, value) :: after)))
        = Throw (Headers.InvalidHeaderName name)).
Proof.
  unfold Headers.append, Headers.set, Headers.delete, Headers.has, Headers.getAll,
    Headers.validateHeaderName.
  rewrite Hname. simpl. repeat split.
  - intros before value after Hb. unfold Headers.new. simpl.
    now apply mapM_validate_bad_name.
  - intros before value after Hb. unfold Headers.new. simpl.
    rewrite mapM_as_tuple. simpl. now apply mapM_validate_bad_name.
Qed.

Lemma invalid_name_rejected_witness :
  Headers.is_token (lit "Bad Name!") = false
  /\ Headers.append [] (lit "Bad Name!") (lit "v")
     = Throw (Headers.InvalidHeaderName (lit "Bad Name!"))
  /\ Headers.new (Headers.InitRecord [(lit "a", lit "1"); (lit "Bad Name!", lit "v")])
     = Throw (Headers.InvalidHeaderName (lit "Bad Name!")).
Proof.
  assert (H : Headers.is_token (lit "Bad Name!") = false) by (vm_compute; reflexivity).
  split; [exact H |]. split.
  - apply (proj1 (invalid_name_rejected _ H)).
  - apply (proj1 (proj2 (proj2 (proj2 (proj2 (proj2
      (invalid_name_rejected _ H)))))) [(lit "a", lit "1")] (lit "v") []).
    vm_compute. reflexivity.
Defined.

(** C8.  For the flat list of any sequence of name/value pairs,
    [fromRawHeaders] returns, without throwing, the table of exactly the
    pairs whose name and value are both valid, in their order, names
    lowercased; the list of the example keeps [valid-name] and [another]
    and drops the pair between them. *)
Theorem fromRawHeaders_drops_invalid :
  (forall pairs : list (jsstring * jsstring),
      Headers.fromRawHeaders (flatten pairs)
      = Ok (map lowercase_name (filter valid_pair pairs)))
  /\ Headers.fromRawHeaders
       [lit "Valid-Name"; lit "v1"; lit "Bad Name!"; lit "v2"; lit "Another"; lit "v3"]
     = Ok [(lit "valid-name", lit "v1"); (lit "another", lit "v3")].
Proof.
  split.
  - intros pairs. unfold Headers.fromRawHeaders, Headers.new. simpl.
    rewrite slices_flatten, filter_map_tuple, mapM_as_tuple. simpl.
    apply mapM_validate_valid, forallb_filter.
  - vm_compute. reflexivity.
Qed.

(** ** Facts about blobs *)

Section BlobFacts.

Import Blob.

Lemma blob_ind (P : t -> Prop)
      (step : forall ty sz ps, Forall (part_holds P) ps -> P (mk ty sz ps)) :
  forall b, P b.
Proof.
  refine (fix IH (b : t) : P b :=
            match b with
            | mk ty sz ps =>
                step ty sz ps
                     ((fix go (l : list part) : Forall (part_holds P) l :=
                         match l with
                         | [] => Forall_nil _
                         | p :: r =>
                             Forall_cons p
                               (match p return part_holds P p with
                                | PBuffer _ => I
                                | PBlob b' => IH b'
                                end) (go r)
                         end) ps)
            end).
Qed.

Lemma wf_parts_Forall (ps : list part) :
  fold_right (fun p acc => match p with
                           | PBuffer _ => True
                           | PBlob b' => wf b'
                           end /\ acc) True ps
  <-> Forall wf_part ps.
Proof.
  induction ps as [| p r IH]; simpl.
  - split; [constructor | trivial].
  - rewrite IH. split.
    + intros [Hp Hr]. constructor; [destruct p; exact Hp | exact Hr].
    + intros H. inversion H; subst. split; [destruct p; assumption | assumption].
Qed.

Lemma wf_mk (ty : jsstring) (sz : Z) (ps : list part) :
  wf (mk ty sz ps) <-> sz = sum_sizes ps /\ Forall wf_part ps.
Proof. simpl. now rewrite wf_parts_Forall. Qed.

Lemma fold_sizes_shift (ps : list part) (a : Z) :
  fold_left (fun acc p => acc + part_size p)%Z ps a = (a + sum_sizes ps)%Z.
Proof.
  unfold sum_sizes. revert a. induction ps as [| p r IH]; intros a; simpl.
  - lia.
  - rewrite IH, (IH (part_size p)). lia.
Qed.

Lemma sum_sizes_cons (p : part) (r : list part) :
  sum_sizes (p :: r) = (part_size p + sum_sizes r)%Z.
Proof. unfold sum_sizes at 1. simpl. apply fold_sizes_shift. Qed.

(** The constructor establishes the invariant for its own level. *)
Lemma new_size_is_sum (ps : list BlobPart) (ty : option jsstring) :
  size (new ps ty) = sum_sizes (parts (new ps ty)).
Proof. reflexivity. Qed.

Lemma stream_mk (ty : jsstring) (sz : Z) (ps : list part) :
  stream (mk ty sz ps) = flat_map part_stream ps.
Proof. reflexivity. Qed.

Lemma content_parts (ps : list part) :
  concat (flat_map part_stream ps) = flat_map part_content ps.
Proof.
  induction ps as [| p r IH]; simpl; [reflexivity |].
  now rewrite concat_app, IH.
Qed.

Lemma wf_content_length :
  forall b, wf b -> Z.of_nat (length (content b)) = size b.
Proof.
  apply (blob_ind (fun b => wf b -> Z.of_nat (length (content b)) = size b)).
  intros ty sz ps IH Hwf. apply wf_mk in Hwf. destruct Hwf as [-> Hps].
  unfold content. rewrite stream_mk, content_parts. simpl.
  induction ps as [| p r IHr]; [reflexivity |].
  inversion IH as [| ? ? IHp IHrest]; subst.
  inversion Hps as [| ? ? Hp Hrest]; subst.
  simpl. rewrite length_app, Nat2Z.inj_add, sum_sizes_cons, (IHr IHrest Hrest).
  f_equal. destruct p as [buf | b']; simpl.
  - unfold part_content. simpl. now rewrite app_nil_r.
  - apply IHp, Hp.
Qed.

Lemma wf_part_content_length (p : part) :
  wf_part p -> Z.of_nat (length (part_content p)) = part_size p.
Proof.
  destruct p as [buf | b']; simpl; intros H.
  - unfold part_content. simpl. now rewrite app_nil_r.
  - now apply wf_content_length.
Qed.

Lemma wf_parts_empty (ps : list part) :
  Forall wf_part ps -> sum_sizes ps = 0%Z -> flat_map part_content ps = [].
Proof.
  induction 1 as [| p r Hp Hr IH]; [reflexivity |].
  rewrite sum_sizes_cons. intros Hsum. simpl.
  pose proof (wf_part_content_length p Hp) as Lp.
  assert (Hnonneg : (0 <= sum_sizes r)%Z).
  { clear - Hr. induction Hr as [| q r' Hq _ IHq]; [unfold sum_sizes; simpl; lia |].
    rewrite sum_sizes_cons. pose proof (wf_part_content_length q Hq). lia. }
  assert (part_content p = []) as -> by (apply length_zero_iff_nil; lia).
  simpl. apply IH. lia.
Qed.

Lemma wf_sum_nonneg (ps : list part) :
  Forall wf_part ps -> (0 <= sum_sizes ps)%Z.
Proof.
  induction 1 as [| q r Hq _ IHq]; [unfold sum_sizes; simpl; lia |].
  rewrite sum_sizes_cons. pose proof (wf_part_content_length q Hq). lia.
Qed.

End BlobFacts.

Section BlobData.

Import Blob.

Lemma slice_mk (ty0 ty : jsstring) (sz start end_ : Z) (ps : list part) :
  slice (mk ty0 sz ps) start end_ ty
  = let relativeStart :=
      if (start <? 0)%Z then Z.max (sz + start) 0 else Z.min start sz in
    let relativeEnd :=
      if (end_ <? 0)%Z then Z.max (sz + end_) 0 else Z.min end_ sz in
    let span := Z.max (relativeEnd - relativeStart) 0 in
    mk (normalise_type (Some ty)) span
       (slice_loop slice_part span ps relativeStart relativeEnd 0%Z).
Proof. reflexivity. Qed.

Lemma write_chunks_fits (chunks : list bytes) :
  forall (data : bytes) (off : nat),
    (off + length (concat chunks) <= length data)%nat ->
    write_chunks data off chunks
    = Ok (firstn off data ++ concat chunks
            ++ skipn (off + length (concat chunks)) data).
Proof.
  induction chunks as [| c rest IH]; intros data off Hfit; simpl.
  - rewrite Nat.add_0_r. now rewrite firstn_skipn.
  - simpl in Hfit. rewrite length_app in Hfit.
    unfold typed_set.
    destruct (length data <? off + length c)%nat eqn:E.
    { apply Nat.ltb_lt in E. lia. }
    simpl.
    remember (firstn off data) as A eqn:EA.
    remember (skipn (off + length c) data) as B eqn:EB.
    assert (LA : length A = off) by (subst A; rewrite length_firstn; lia).
    assert (LB : length B = (length data - (off + length c))%nat)
      by (subst B; now rewrite length_skipn).
    assert (LAc : length (A ++ c) = (off + length c)%nat)
      by (rewrite length_app; lia).
    assert (F : firstn (off + length c) (A ++ c ++ B) = A ++ c).
    { rewrite app_assoc, firstn_app, LAc, Nat.sub_diag.
      rewrite <- LAc, firstn_all. simpl. apply app_nil_r. }
    assert (S : forall n, skipn (off + length c + n) (A ++ c ++ B)
                          = skipn (off + length c + n) data).
    { intros n. rewrite app_assoc, skipn_app, skipn_all2 by lia.
      rewrite LAc. simpl.
      replace (off + length c + n - (off + length c))%nat with n by lia.
      subst B. rewrite skipn_skipn. f_equal. lia. }
    rewrite IH by (rewrite !length_app; lia).
    rewrite F, S, <- !app_assoc, length_app, Nat.add_assoc. reflexivity.
Qed.

(** A payload whose chunks add up to its size reads back as their
    concatenation. *)
Lemma data_exact (b : t) :
  Z.of_nat (length (content b)) = size b -> data b = Ok (content b).
Proof.
  intros H. unfold data. rewrite write_chunks_fits.
  - simpl. fold (content b).
    rewrite skipn_all2 by (rewrite repeat_length; lia).
    now rewrite app_nil_r.
  - rewrite repeat_length. fold (content b). lia.
Qed.

Lemma buffer_slice_whole (buf : bytes) :
  buffer_slice buf 0 (Z.of_nat (length buf)) = buf.
Proof.
  destruct buf as [| x r]; [reflexivity |].
  unfold buffer_slice, adjustOffset.
  set (len := Z.of_nat (length (x :: r))).
  assert (Hlen : (0 < len)%Z) by (subst len; simpl; lia).
  replace (len <? 0)%Z with false by (symmetry; apply Z.ltb_ge; lia).
  simpl (0 <? 0)%Z. cbv iota. rewrite Z.min_id, Z.min_l by lia.
  replace (0 <? len)%Z with true by (symmetry; apply Z.ltb_lt; lia).
  rewrite Z.sub_0_r. subst len. rewrite Nat2Z.id.
  change (Z.to_nat 0) with 0%nat. rewrite skipn_O. apply firstn_all.
Qed.

Lemma slice_loop_whole (sp : part -> Z -> Z -> part) (sz : Z) (ps : list part) :
  Forall wf_part ps -> Forall (copies sp) ps ->
  forall added, (0 <= added)%Z -> (added + sum_sizes ps = sz)%Z ->
    flat_map part_content (slice_loop sp sz ps 0%Z sz added)
    = flat_map part_content ps.
Proof.
  intros Hwf. induction Hwf as [| p r Hp Hr IH]; intros Hc added Hadded Hsum.
  - reflexivity.
  - inversion_clear Hc as [| ? ? Hcp Hcr]. destruct Hcp as [Hsize Hcontent].
    rewrite sum_sizes_cons in Hsum.
    pose proof (wf_part_content_length p Hp) as Lp.
    pose proof (wf_sum_nonneg r Hr) as Lr.
    simpl. rewrite Z.min_l by lia. rewrite Hsize. simpl.
    rewrite Hcontent. f_equal.
    destruct (sz <=? added + part_size p)%Z eqn:E.
    + apply Z.leb_le in E.
      simpl. symmetry. apply wf_parts_empty; [exact Hr | lia].
    + apply IH; [exact Hcr | lia | lia].
Qed.

Lemma slice_whole_wf :
  forall b, wf b ->
    forall ty, size (slice b 0 (size b) ty) = size b
               /\ content (slice b 0 (size b) ty) = content b.
Proof.
  apply (blob_ind (fun b => wf b ->
    forall ty, size (slice b 0 (size b) ty) = size b
               /\ content (slice b 0 (size b) ty) = content b)).
  intros ty0 sz ps IH Hwf ty.
  pose proof (wf_content_length _ Hwf) as Hlen. simpl in Hlen.
  apply wf_mk in Hwf. destruct Hwf as [Hsz Hps].
  simpl size. rewrite slice_mk.
  assert (E : (sz <? 0)%Z = false) by (apply Z.ltb_ge; lia).
  cbv zeta. change (0 <? 0)%Z with false. rewrite E. cbv iota.
  rewrite Z.min_id, (Z.min_l 0 sz), Z.sub_0_r, Z.max_l by lia.
  split; [reflexivity |].
  unfold content. rewrite !stream_mk, !content_parts.
  apply slice_loop_whole; [exact Hps | | lia | lia].
  clear - IH Hps. induction Hps as [| p r Hp Hr IHr]; constructor.
  - inversion IH as [| ? ? IHp _]; subst.
    destruct p as [buf | b']; unfold copies; simpl.
    + rewrite buffer_slice_whole. auto.
    + destruct (IHp Hp []) as [H1 H2]. split; [exact H1 |].
      unfold part_content. simpl. exact H2.
  - inversion IH; subst. now apply IHr.
Qed.

(** On a payload that satisfies the size invariant at every level,
    [data] succeeds and slicing the whole of it reads back the same
    bytes. *)
Lemma slice_whole_data_wf (b : t) (ty : jsstring) :
  wf b ->
  data b = Ok (content b) /\ data (slice b 0 (size b) ty) = Ok (content b).
Proof.
  intros Hwf. destruct (slice_whole_wf b Hwf ty) as [Hs Hc].
  pose proof (wf_content_length b Hwf) as Hlen.
  split; [now apply data_exact |].
  rewrite <- Hc. apply data_exact. rewrite Hc, Hs. exact Hlen.
Qed.

End BlobData.

(** ** Properties of responses, payloads and the constructor *)

(** C2.  [ok] is true exactly for the status codes up to 200: it is false
    for 201, inside the range from 200 to 300, and true for 100, outside
    it. *)
Theorem ok_only_up_to_200 :
  (forall r, Response.ok r = true <-> (Response.statusCode r <= 200)%Z)
  /\ Response.ok (with_status 201) = false
  /\ Response.ok (with_status 100) = true.
Proof.
  repeat split; try reflexivity.
  - unfold Response.ok. rewrite andb_true_iff, Z.leb_le. tauto.
  - unfold Response.ok. rewrite andb_true_iff, Z.leb_le, Z.ltb_lt. lia.
Qed.

(** C6.  The payload of the buffers 1,2,3 and 4,5,6 satisfies the size
    invariant; its slice from 1 to 4 stores size 3 over parts of sizes 2
    and 3, and can no longer be read. *)
Theorem slice_breaks_size_invariant :
  wf two_buffers
  /\ Blob.slice two_buffers 1 4 []
     = Blob.mk [] 3 [Blob.PBuffer [2; 3]%N; Blob.PBuffer [4; 5; 6]%N]
  /\ Blob.size (Blob.slice two_buffers 1 4 []) = 3%Z
  /\ Blob.sum_sizes (Blob.parts (Blob.slice two_buffers 1 4 [])) = 5%Z
  /\ Blob.data (Blob.slice two_buffers 1 4 []) = Throw Blob.RangeError.
Proof. repeat split. Qed.

(** C10.  The slice from 4 to 1 of the payload of the buffers 1,2,3 and
    4,5,6,7,8 is a payload of size 0 holding two bytes: reading it throws,
    while reading its slice from 0 to its size gives the empty buffer. *)
Theorem slice_whole_data_differs :
  Blob.slice short_and_long 4 1 [] = Blob.mk [] 0 [Blob.PBuffer [5; 6]%N]
  /\ Blob.data (Blob.slice short_and_long 4 1 []) = Throw Blob.RangeError
  /\ Blob.data (Blob.slice (Blob.slice short_and_long 4 1 []) 0
                           (Blob.size (Blob.slice short_and_long 4 1 [])) [])
     = Ok [].
Proof. repeat split. Qed.


(** ** Properties of the engine *)

(** The number of an element of a buffer is the element modulo 256. *)
Lemma byte_number_integer (b : N) :
  JSON.integer (JSON.byte_number b) = Z.of_N (N.land b 255).
Proof.
  assert (H : JSON.isSafeInteger (Z.of_N (N.land b 255)) = true).
  { unfold JSON.isSafeInteger, JSON.MAX_SAFE_INTEGER. apply Z.leb_le.
    change 255%N with (N.ones 8). rewrite N.land_ones.
    pose proof (N.mod_upper_bound b (2 ^ 8)%N ltac:(discriminate)) as U.
    revert U. generalize (b mod 2 ^ 8)%N. intros m U.
    change (2 ^ 8)%N with 256%N in U. lia. }
  unfold JSON.byte_number, JSON.number_of.
  destruct (bool_dec _ true) as [E | E]; [reflexivity | contradiction].
Qed.

Section EngineFacts.

Import Request Engine.

Variable version : jsstring.

Lemma fold_chunk_buf (cs : list bytes) (res : Response.t) :
  Response._buf (fold_left Response._chunk cs res) = Response._buf res ++ concat cs
  /\ Response.message (fold_left Response._chunk cs res) = Response.message res
  /\ Response.request (fold_left Response._chunk cs res) = Response.request res.
Proof.
  revert res. induction cs as [| c rest IH]; intros res; simpl.
  - now rewrite app_nil_r.
  - destruct (IH (Response._chunk res c)) as (H1 & H2 & H3).
    rewrite H1, H2, H3. simpl. now rewrite <- app_assoc.
Qed.

Lemma extends_refl (r : Request.t) (l : list Sent) : extends r l l.
Proof. exists []. rewrite app_nil_r. repeat split. constructor. Qed.

Lemma attempt_log (recurse : Request.t -> State -> Outcome * State)
      (ex : Exchange) (r : Request.t) (st : State) :
  (forall q s, extends q (log s) (log (snd (recurse q s)))) ->
  extends r (log st) (log (snd (attempt version recurse ex r st))).
Proof.
  intros IH. unfold attempt.
  destruct (prepare_headers version r) as [h |]; [| apply extends_refl].
  destruct (Headers.raw h) as [[h' raw] |]; [| apply extends_refl].
  cbv zeta.
  destruct (match _signal (with_headers r h') with
            | Some s => aborted s
            | None => false
            end); [apply extends_refl |].
  destruct (written (_body (with_headers r h'))) as [chunk |] eqn:W;
    [| apply extends_refl].
  destruct (match chunk with
            | Some c => negb (writable c)
            | None => false
            end) eqn:Hwrite; [apply extends_refl |].
  assert (One : extends r (log st)
                  (log st ++ [{| sent_by := with_headers r h';
                                 sent_headers := raw; sent_body := chunk |}])).
  { eexists [_]. repeat split; simpl; auto. }
  destruct ex as [msg | e |]; [| exact One | exact One].
  destruct (Headers.fromRawHeaders (Response.rawHeaders msg)) as [headers |];
    [| exact One].
  destruct (Headers.get headers (lit "Location")) as [location |];
    [| exact One].
  match goal with
  | |- context [if ?c then _ else _] => destruct c
  end.
  - match goal with
    | |- context [Request.new ?u ?o ?d] => destruct (Request.new u o d) as [[req | e] d']
    end; [| exact One].
    match goal with
    | |- context [recurse ?q ?s] =>
        specialize (IH q s); destruct (recurse q s) as [o st']
    end.
    simpl in IH. destruct IH as (new & Hlog & Hall & _).
    assert (extends r (log st) (log st')).
    { exists ({| sent_by := with_headers r h'; sent_headers := raw;
                 sent_body := chunk |} :: new).
      rewrite Hlog, <- app_assoc. repeat split; auto. }
    destruct o; assumption.
  - destruct (Response.ending msg); exact One.
Qed.

Lemma exec_log (script : list Exchange) :
  forall r st, extends r (log st) (log (snd (exec version script r st))).
Proof.
  induction script as [| ex rest IH]; intros r st; simpl.
  - apply attempt_log. intros q s. apply extends_refl.
  - apply attempt_log, IH.
Qed.

(** What holds of every request as it is logged holds of every request
    a run logs: a request is logged with the chunk [written] computes
    from its body, which is something [req.write] takes or nothing. *)
Lemma attempt_logged (P : Sent -> Prop)
      (recurse : Request.t -> State -> Outcome * State)
      (ex : Exchange) (r : Request.t) (st : State) :
  (forall q raw chunk,
      written (_body q) = Ok chunk ->
      match chunk with Some c => writable c = true | None => True end ->
      P {| sent_by := q; sent_headers := raw; sent_body := chunk |}) ->
  (forall q s, exists new,
        log (snd (recurse q s)) = log s ++ new /\ Forall P new) ->
  exists new,
    log (snd (attempt version recurse ex r st)) = log st ++ new
    /\ Forall P new.
Proof.
  intros HP IH. unfold attempt.
  assert (Z0 : exists new, log st = log st ++ new /\ Forall P new)
    by (exists []; rewrite app_nil_r; split; [reflexivity | constructor]).
  destruct (prepare_headers version r) as [h |]; [| exact Z0].
  destruct (Headers.raw h) as [[h' raw] |]; [| exact Z0].
  cbv zeta.
  destruct (match _signal (with_headers r h') with
            | Some s => aborted s
            | None => false
            end); [exact Z0 |].
  destruct (written (_body (with_headers r h'))) as [chunk |] eqn:W;
    [| exact Z0].
  destruct (match chunk with
            | Some c => negb (writable c)
            | None => false
            end) eqn:Hwrite; [exact Z0 |].
  set (first := {| sent_by := with_headers r h'; sent_headers := raw;
                   sent_body := chunk |}).
  assert (Pfirst : P first).
  { apply HP; [exact W |]. destruct chunk as [c |]; [| exact I].
    now apply negb_false_iff in Hwrite. }
  assert (One : exists new, log st ++ [first] = log st ++ new /\ Forall P new)
    by (exists [first]; split; [reflexivity | now repeat constructor]).
  destruct ex as [msg | x |]; [| exact One | exact One].
  destruct (Headers.fromRawHeaders (Response.rawHeaders msg)) as [headers |];
    [| exact One].
  destruct (Headers.get headers (lit "Location")) as [location |]; [| exact One].
  match goal with
  | |- context [if ?c then _ else _] => destruct c
  end.
  - match goal with
    | |- context [Request.new ?u ?o ?d] =>
        destruct (Request.new u o d) as [[req | e'] d']
    end; [| exact One].
    match goal with
    | |- context [recurse ?q ?s] =>
        specialize (IH q s); destruct (recurse q s) as [o st']
    end.
    destruct IH as (new & Hlog & Hall). simpl in Hlog.
    assert (Hres : exists new', log st' = log st ++ new' /\ Forall P new').
    { exists (first :: new). rewrite Hlog, <- app_assoc.
      split; [reflexivity | now constructor]. }
    destruct o; exact Hres.
  - destruct (Response.ending msg); exact One.
Qed.

Lemma exec_logged (P : Sent -> Prop) :
  (forall q raw chunk,
      written (_body q) = Ok chunk ->
      match chunk with Some c => writable c = true | None => True end ->
      P {| sent_by := q; sent_headers := raw; sent_body := chunk |}) ->
  forall script r st,
    exists new,
      log (snd (exec version script r st)) = log st ++ new /\ Forall P new.
Proof.
  intros HP. induction script as [| ex rest IH]; intros r st; simpl.
  - apply attempt_logged; [exact HP |]. intros q s. exists [].
    rewrite app_nil_r. split; [reflexivity | constructor].
  - apply attempt_logged; [exact HP | exact IH].
Qed.

Lemma exec_as_written (script : list Exchange) (r : Request.t) (st : State) :
  exists new,
    log (snd (exec version script r st)) = log st ++ new
    /\ Forall (fun s => written (_body (sent_by s)) = Ok (sent_body s)) new.
Proof.
  apply exec_logged. intros q raw chunk H _. exact H.
Qed.


Lemma unsettled_raw (r : Request.t) (st : State) : raw_buffer (unsettled r st).
Proof. unfold unsettled. destruct (truthy_number _); exact I. Qed.

Lemma attempt_buffer (recurse : Request.t -> State -> Outcome * State)
      (ex : Exchange) (r : Request.t) (st : State) :
  (forall q s, raw_buffer (fst (recurse q s))) ->
  raw_buffer (fst (attempt version recurse ex r st)).
Proof.
  intros IH. unfold attempt.
  destruct (prepare_headers version r) as [h |]; [| exact I].
  destruct (Headers.raw h) as [[h' raw] |]; [| exact I].
  cbv zeta.
  destruct (match _signal (with_headers r h') with
            | Some s => aborted s
            | None => false
            end); [exact I |].
  destruct (written (_body (with_headers r h'))) as [chunk |];
    [| apply unsettled_raw].
  destruct (match chunk with
            | Some c => negb (writable c)
            | None => false
            end) eqn:Hwrite; [apply unsettled_raw |].
  destruct ex as [msg | e |]; [| exact I | apply unsettled_raw].
  destruct (Headers.fromRawHeaders (Response.rawHeaders msg)) as [headers |];
    [| apply unsettled_raw].
  destruct (Headers.get headers (lit "Location")) as [location |];
    [| apply unsettled_raw].
  match goal with
  | |- context [if ?c then _ else _] => destruct c
  end.
  - match goal with
    | |- context [Request.new ?u ?o ?d] => destruct (Request.new u o d) as [[req | e] d']
    end; [| apply unsettled_raw].
    match goal with
    | |- context [recurse ?q ?s] =>
        specialize (IH q s); destruct (recurse q s) as [o st']
    end.
    destruct o; try apply unsettled_raw. exact IH.
  - destruct (Response.ending msg); [| exact I].
    simpl.
    destruct (fold_chunk_buf (Response.chunks msg)
                {| Response.request := with_headers r h';
                   Response.message := msg; Response._buf := [] |})
      as (H1 & H2 & _).
    rewrite H1, H2. reflexivity.
Qed.

(** A response that resolves holds the chunks of its message as the
    transport delivered them. *)
Lemma exec_buffer (script : list Exchange) :
  forall r st, raw_buffer (fst (exec version script r st)).
Proof.
  induction script as [| ex rest IH]; intros r st; simpl.
  - apply attempt_buffer. intros q s. exact I.
  - apply attempt_buffer, IH.
Qed.

End EngineFacts.

(** C1.  No run of [exec] changes the redirect counter: every request it
    sends carries the counter of the request it was called on.  So with a
    cap of three and five redirecting responses before the answer, the
    engine sends five further requests, each with counter 0, and resolves
    with the status of the answer. *)
Theorem redirect_cap_not_enforced (version : jsstring) :
  (forall script r st,
      exists new,
        Engine.log (snd (Engine.exec version script r st)) = Engine.log st ++ new
        /\ Forall (fun s => Request.redirects (Engine.sent_by s) = Request.redirects r) new)
  /\ (exists r,
         Request.new example_url cap_three Request.defaultRequestOptions
         = (Ok r, capped_defaults)
         /\ let run := Engine.exec version five_redirects r (fresh capped_defaults) in
            (exists res, fst run = Engine.Resolved res
                         /\ Response.statusCode res = 200%Z
                         /\ Request.redirects (Response.request res) = 0%Z)
            /\ length (Engine.log (snd run)) = 6%nat
            /\ map (fun s => Request.redirects (Engine.sent_by s)) (Engine.log (snd run))
               = [0; 0; 0; 0; 0; 0]%Z).
Proof.
  split.
  - intros script r st.
    destruct (exec_log version script r st) as (new & H1 & H2 & _).
    exists new. split; assumption.
  - eexists. split; [vm_compute; reflexivity |].
    cbv zeta. split; [| split]; [| vm_compute; reflexivity | vm_compute; reflexivity].
    eexists. split; [vm_compute; reflexivity |].
    split; vm_compute; reflexivity.
Qed.

(** C3.  A response that resolves holds in its buffer the chunks of its
    message as the transport delivered them, whatever the compression
    flag and the content encoding.  With the flag set and a gzip response,
    the stream is piped into a gunzip stream, and the buffer is the gzip
    stream itself. *)
Theorem response_buffer_is_raw (version : jsstring) :
  (forall script r st,
      match fst (Engine.exec version script r st) with
      | Engine.Resolved res =>
          Response._buf res = concat (Response.chunks (Response.message res))
      | _ => True
      end)
  /\ (exists r,
         Request.new example_url compressing Request.defaultRequestOptions
         = (Ok r, compressing_defaults)
         /\ let run := Engine.exec version [Engine.Respond gzip_response] r
                                   (fresh compressing_defaults) in
            (exists res, fst run = Engine.Resolved res
                         /\ Response._buf res = concat gzip_hi)
            /\ Engine.sinks (snd run) = [(Engine.Gunzip, concat gzip_hi)]).
Proof.
  split.
  - intros script r st. apply (exec_buffer version script r st).
  - eexists. split; [vm_compute; reflexivity |].
    cbv zeta. split; [| vm_compute; reflexivity].
    eexists. split; vm_compute; reflexivity.
Qed.

(** C4, as amended.  Every request a run sends with a truthy body, the
    first one and those made for redirects, has written to the transport:
    the bytes of the JSON text of the body when it is a plain object, an
    array or a byte buffer, a buffer going through its JSON form like any
    other object; the bytes of the body when it is a string.  The text is
    written in UTF-8. *)
Theorem body_written (version : jsstring) (script : list Engine.Exchange)
        (r : Request.t) (st : Engine.State) (s : Engine.Sent) (b : Request.Body)
        (Hsent : In s (skipn (length (Engine.log st))
                             (Engine.log (snd (Engine.exec version script r st)))))
        (Hbody : Request._body (Engine.sent_by s) = Some b)
        (Htruthy : Request.truthy_body (Some b) = true) :
  match b with
  | Request.BPlain fields =>
      bytes_written s
      = Some (Blob.utf8_encode (JSON.stringify (JSON.JObj fields)))
  | Request.BArray items =>
      bytes_written s
      = Some (Blob.utf8_encode (JSON.stringify (JSON.JArr items)))
  | Request.BBuffer buf =>
      bytes_written s
      = Some (Blob.utf8_encode (JSON.stringify (JSON.of_buffer buf)))
  | Request.BString str => bytes_written s = Some (Blob.utf8_encode str)
  | _ => True
  end.
Proof.
  destruct (exec_as_written version script r st) as (new & Hlog & Hall).
  rewrite Hlog, skipn_app, skipn_all, Nat.sub_diag in Hsent. simpl in Hsent.
  rewrite Forall_forall in Hall. specialize (Hall s Hsent).
  rewrite Hbody in Hall. unfold Engine.written in Hall.
  rewrite Htruthy in Hall. unfold bytes_written.
  destruct b as [| v | z | str | fields | items | buf | bl]; try exact I;
    unfold Engine.serialise, bind in Hall;
    injection Hall as <-; reflexivity.
Qed.

Lemma body_written_witness :
  exists s,
    In s (skipn (length (Engine.log (fresh Request.defaultRequestOptions)))
                (Engine.log (snd (Engine.exec [] [Engine.Respond final_ok]
                                              buffer_post
                                              (fresh Request.defaultRequestOptions)))))
    /\ Request._body (Engine.sent_by s) = Some (Request.BBuffer [1; 2; 3]%N)
    /\ Request.truthy_body (Some (Request.BBuffer [1; 2; 3]%N)) = true
    /\ bytes_written s
       = Some (Blob.utf8_encode (JSON.stringify (JSON.of_buffer [1; 2; 3]%N))).
Proof.
  eexists. split; [vm_compute; left; reflexivity |].
  split; [reflexivity |]. split; [reflexivity |].
  apply (body_written [] [Engine.Respond final_ok] buffer_post
                      (fresh Request.defaultRequestOptions) _
                      (Request.BBuffer [1; 2; 3]%N)).
  - vm_compute. left. reflexivity.
  - reflexivity.
  - reflexivity.
Defined.

(** C4, as stated, fails for a byte buffer: the run that posts the buffer
    1,2,3 writes the 32 bytes of the text of its JSON form, not the bytes
    1,2,3. *)
Lemma buffer_body_is_stringified :
  exists s,
    nth_error (Engine.log (snd (Engine.exec [] [Engine.Respond final_ok] buffer_post
                                            (fresh Request.defaultRequestOptions))))
              0
    = Some s
    /\ Request._body (Engine.sent_by s) = Some (Request.BBuffer [1; 2; 3]%N)
    /\ bytes_written s = Some buffer_json_text
    /\ bytes_written s <> Some [1; 2; 3]%N.
Proof.
  eexists. split; [vm_compute; reflexivity |].
  split; [reflexivity |]. split; [vm_compute; reflexivity |].
  vm_compute. discriminate.
Qed.

(** ** Lookups after updates of the header table *)

Section HeaderUpdates.

Import Headers.

Lemma token_char_bound (c : N) : is_token_char c = true -> (c <= 126)%N.
Proof.
  unfold is_token_char, is_word. simpl.
  rewrite !orb_true_iff, !andb_true_iff, !N.leb_le, !N.eqb_eq. lia.
Qed.

Lemma lower_unit_small (c : N) :
  (c <= 126)%N -> lower_unit c = if ((65 <=? c) && (c <=? 90))%N then (c + 32)%N else c.
Proof.
  intros H. unfold lower_unit.
  destruct ((65 <=? c) && (c <=? 90))%N; [reflexivity |].
  replace (192 <=? c)%N with false by (symmetry; apply N.leb_gt; lia).
  replace (c =? 8490)%N with false by (symmetry; apply N.eqb_neq; lia).
  reflexivity.
Qed.

Lemma lower_unit_token (c : N) :
  is_token_char c = true -> is_token_char (lower_unit c) = true.
Proof.
  intros H. rewrite lower_unit_small by now apply token_char_bound.
  destruct ((65 <=? c) && (c <=? 90))%N eqn:E; [| exact H].
  apply andb_true_iff in E. destruct E as [E1 E2].
  apply N.leb_le in E1, E2.
  unfold is_token_char, is_word.
  replace (97 <=? c + 32)%N with true by (symmetry; apply N.leb_le; lia).
  replace (c + 32 <=? 122)%N with true by (symmetry; apply N.leb_le; lia).
  simpl. now rewrite !orb_true_r.
Qed.

Lemma lower_unit_idem (c : N) : lower_unit (lower_unit c) = lower_unit c.
Proof.
  destruct ((65 <=? c) && (c <=? 90))%N eqn:E1.
  - assert (L : lower_unit c = (c + 32)%N) by (unfold lower_unit; now rewrite E1).
    rewrite L. apply andb_true_iff in E1. destruct E1 as [A B].
    apply N.leb_le in A, B. unfold lower_unit.
    replace (c + 32 <=? 90)%N with false by (symmetry; apply N.leb_gt; lia).
    replace (192 <=? c + 32)%N with false by (symmetry; apply N.leb_gt; lia).
    replace (c + 32 =? 8490)%N with false by (symmetry; apply N.eqb_neq; lia).
    rewrite andb_false_r. reflexivity.
  - destruct ((192 <=? c) && (c <=? 222) && negb (c =? 215))%N eqn:E2.
    + assert (L : lower_unit c = (c + 32)%N)
        by (unfold lower_unit; now rewrite E1, E2).
      rewrite L. rewrite !andb_true_iff in E2. destruct E2 as [[A B] _].
      apply N.leb_le in A, B. unfold lower_unit.
      replace (c + 32 <=? 90)%N with false by (symmetry; apply N.leb_gt; lia).
      replace (c + 32 <=? 222)%N with false by (symmetry; apply N.leb_gt; lia).
      replace (c + 32 =? 8490)%N with false by (symmetry; apply N.eqb_neq; lia).
      rewrite !andb_false_r. reflexivity.
    + destruct (c =? 8490)%N eqn:E3.
      * assert (L : lower_unit c = 107%N)
          by (unfold lower_unit; now rewrite E1, E2, E3).
        rewrite L. reflexivity.
      * assert (L : lower_unit c = c)
          by (unfold lower_unit; now rewrite E1, E2, E3).
        now rewrite !L.
Qed.

Lemma toLowerCase_idem (s : jsstring) : toLowerCase (toLowerCase s) = toLowerCase s.
Proof.
  unfold toLowerCase. rewrite map_map. apply map_ext, lower_unit_idem.
Qed.

Lemma toLowerCase_token (name : jsstring) :
  is_token name = true -> is_token (toLowerCase name) = true.
Proof.
  destruct name as [| c r]; [discriminate |].
  unfold is_token. simpl. rewrite !andb_true_iff. intros [Hc Hr].
  split; [now apply lower_unit_token |].
  rewrite forallb_forall in *. intros x Hx.
  apply in_map_iff in Hx. destruct Hx as (y & <- & Hy).
  now apply lower_unit_token, Hr.
Qed.

Lemma getAll_token (h : t) (name : jsstring) :
  is_token name = true -> getAll h name = Ok (USP.getAll h (toLowerCase name)).
Proof. intros H. unfold getAll, validateHeaderName. now rewrite H. Qed.

Lemma usp_getAll_append (l : t) (n v m : jsstring) :
  USP.getAll (USP.append l n v) m
  = USP.getAll l m ++ (if jsstring_eqb n m then [v] else []).
Proof.
  unfold USP.getAll, USP.append. rewrite filter_app, map_app. simpl.
  now destruct (jsstring_eqb n m).
Qed.

Lemma usp_getAll_delete (l : t) (n m : jsstring) :
  USP.getAll (USP.delete l n) m
  = if jsstring_eqb n m then [] else USP.getAll l m.
Proof.
  unfold USP.getAll, USP.delete.
  induction l as [| p r IH]; simpl.
  - now destruct (jsstring_eqb n m).
  - destruct (jsstring_eqb (fst p) n) eqn:E1; simpl.
    + rewrite IH. apply jsstring_eqb_eq in E1. subst n.
      destruct (jsstring_eqb (fst p) m); reflexivity.
    + destruct (jsstring_eqb (fst p) m) eqn:E2; simpl; rewrite IH.
      * apply jsstring_eqb_eq in E2. subst m.
        destruct (jsstring_eqb n (fst p)) eqn:E3; [| reflexivity].
        apply jsstring_eqb_eq in E3. subst n.
        now rewrite jsstring_eqb_refl in E1.
      * reflexivity.
Qed.

Lemma usp_getAll_cons (p : jsstring * jsstring) (l : t) (m : jsstring) :
  USP.getAll (p :: l) m
  = (if jsstring_eqb (fst p) m then [snd p] else []) ++ USP.getAll l m.
Proof. unfold USP.getAll. simpl. now destruct (jsstring_eqb (fst p) m). Qed.

Lemma usp_getAll_set (l : t) (n v m : jsstring) :
  USP.getAll (USP.set l n v) m
  = if jsstring_eqb n m then [v] else USP.getAll l m.
Proof.
  induction l as [| p r IH]; simpl.
  - unfold USP.getAll. simpl. now destruct (jsstring_eqb n m).
  - destruct (jsstring_eqb (fst p) n) eqn:E1.
    + apply jsstring_eqb_eq in E1. subst n.
      rewrite !usp_getAll_cons, usp_getAll_delete. simpl.
      destruct (jsstring_eqb (fst p) m); reflexivity.
    + rewrite !usp_getAll_cons, IH.
      destruct (jsstring_eqb n m) eqn:E2.
      * apply jsstring_eqb_eq in E2. subst m. now rewrite E1.
      * reflexivity.
Qed.

Lemma usp_has_getAll (l : t) (m : jsstring) :
  USP.has l m = negb (match USP.getAll l m with [] => true | _ => false end).
Proof.
  unfold USP.has, USP.getAll.
  induction l as [| p r IH]; simpl; [reflexivity |].
  destruct (jsstring_eqb (fst p) m); simpl; [reflexivity | exact IH].
Qed.

End HeaderUpdates.

Section HeaderRoundTrips.

Import Headers.

Lemma append_Ok (h : t) (name value : jsstring) :
  is_token name = true -> is_value value = true ->
  append h name value = Ok (USP.append h (toLowerCase name) value).
Proof.
  intros Hn Hv. unfold append, validateHeaderName, validateHeaderValue.
  now rewrite Hn, Hv.
Qed.

Lemma set_Ok (h : t) (name value : jsstring) :
  is_token name = true -> is_value value = true ->
  set h name value = Ok (USP.set h (toLowerCase name) value).
Proof.
  intros Hn Hv. unfold set, validateHeaderName, validateHeaderValue.
  now rewrite Hn, Hv.
Qed.

Lemma delete_Ok (h : t) (name : jsstring) :
  is_token name = true -> delete h name = Ok (USP.delete h (toLowerCase name)).
Proof. intros Hn. unfold delete, validateHeaderName. now rewrite Hn. Qed.

Lemma has_token (h : t) (name : jsstring) :
  is_token name = true -> has h name = Ok (USP.has h (toLowerCase name)).
Proof. intros Hn. unfold has, validateHeaderName. now rewrite Hn. Qed.

Lemma stored_lowercased (name value : jsstring) :
  is_token name = true -> is_value value = true ->
  stored (toLowerCase name, value).
Proof.
  intros Hn Hv. repeat split; simpl.
  - now apply toLowerCase_token.
  - apply toLowerCase_idem.
  - exact Hv.
Qed.

Lemma mapM_validate_stored (l : list (jsstring * jsstring)) (h : t) :
  mapM validate_and_lowercase l = Ok h -> valid_table h.
Proof.
  revert h. induction l as [| [n v] rest IH]; intros h; simpl.
  - intros [= <-]. constructor.
  - unfold validateHeaderName, validateHeaderValue.
    destruct (is_token n) eqn:Hn; simpl; [| discriminate].
    destruct (is_value v) eqn:Hv; simpl; [| discriminate].
    destruct (mapM validate_and_lowercase rest) as [h0 |]; simpl; [| discriminate].
    intros [= <-]. constructor; [now apply stored_lowercased | now apply IH].
Qed.

Lemma new_valid (init : HeadersInit) (h : t) : new init = Ok h -> valid_table h.
Proof.
  unfold new. destruct (init_pairs init) as [ps |]; simpl; [| discriminate].
  apply mapM_validate_stored.
Qed.

Lemma delete_valid (h : t) (n : jsstring) :
  valid_table h -> valid_table (USP.delete h n).
Proof.
  unfold valid_table, USP.delete. rewrite !Forall_forall.
  intros H p Hp. apply filter_In in Hp. now apply H.
Qed.

Lemma set_valid (h : t) (n v : jsstring) :
  stored (n, v) -> valid_table h -> valid_table (USP.set h n v).
Proof.
  unfold valid_table. intros Hs H. induction H as [| p r Hp Hr IH]; simpl.
  - constructor; [exact Hs | constructor].
  - destruct (jsstring_eqb (fst p) n).
    + constructor; [exact Hs | now apply delete_valid].
    + now constructor.
Qed.

Lemma sort_valid (h : t) : valid_table h -> valid_table (USP.sort h).
Proof.
  unfold valid_table. rewrite !Forall_forall. intros H p Hp.
  apply H. eapply Permutation_in; [apply sort_perm | exact Hp].
Qed.

End HeaderRoundTrips.

(** X1.  Appending a valid header adds its value after the values
    already held under that name, whatever the case either name is written
    in, and leaves the values of every other name as they were. *)
Theorem append_then_getAll (h : Headers.t) (name value name' : jsstring)
        (Hname : Headers.is_token name = true)
        (Hvalue : Headers.is_value value = true)
        (Hname' : Headers.is_token name' = true) :
  exists h' vs,
    Headers.append h name value = Ok h'
    /\ Headers.getAll h name' = Ok vs
    /\ Headers.getAll h' name'
       = Ok (if same_name name name' then vs ++ [value] else vs).
Proof.
  exists (Headers.USP.append h (toLowerCase name) value),
         (Headers.USP.getAll h (toLowerCase name')).
  rewrite append_Ok, !getAll_token by assumption.
  repeat split. rewrite usp_getAll_append. unfold same_name.
  destruct (jsstring_eqb (toLowerCase name) (toLowerCase name'));
    [reflexivity | now rewrite app_nil_r].
Qed.

Lemma append_then_getAll_witness :
  Headers.is_token (lit "Accept") = true
  /\ Headers.is_value (lit "text/html") = true
  /\ Headers.is_token (lit "ACCEPT") = true
  /\ exists h' vs,
      Headers.append [(lit "accept", lit "*/*")] (lit "Accept") (lit "text/html") = Ok h'
      /\ Headers.getAll [(lit "accept", lit "*/*")] (lit "ACCEPT") = Ok vs
      /\ Headers.getAll h' (lit "ACCEPT")
         = Ok (if same_name (lit "Accept") (lit "ACCEPT")
               then vs ++ [lit "text/html"] else vs).
Proof.
  split; [reflexivity |]. split; [reflexivity |]. split; [reflexivity |].
  apply (append_then_getAll [(lit "accept", lit "*/*")] (lit "Accept")
                            (lit "text/html") (lit "ACCEPT")); reflexivity.
Defined.

(** X2.  Setting a valid header leaves exactly the new value under its
    name and the values of every other name as they were. *)
Theorem set_then_getAll (h : Headers.t) (name value name' : jsstring)
        (Hname : Headers.is_token name = true)
        (Hvalue : Headers.is_value value = true)
        (Hname' : Headers.is_token name' = true) :
  exists h' vs,
    Headers.set h name value = Ok h'
    /\ Headers.getAll h name' = Ok vs
    /\ Headers.getAll h' name' = Ok (if same_name name name' then [value] else vs).
Proof.
  exists (Headers.USP.set h (toLowerCase name) value),
         (Headers.USP.getAll h (toLowerCase name')).
  rewrite set_Ok, !getAll_token by assumption.
  repeat split. now rewrite usp_getAll_set.
Qed.

Lemma set_then_getAll_witness :
  Headers.is_token (lit "Accept") = true
  /\ Headers.is_value (lit "text/html") = true
  /\ Headers.is_token (lit "accept") = true
  /\ exists h' vs,
      Headers.set [(lit "accept", lit "a"); (lit "x", lit "1"); (lit "accept", lit "b")]
                  (lit "Accept") (lit "text/html") = Ok h'
      /\ Headers.getAll [(lit "accept", lit "a"); (lit "x", lit "1"); (lit "accept", lit "b")]
                        (lit "accept") = Ok vs
      /\ Headers.getAll h' (lit "accept")
         = Ok (if same_name (lit "Accept") (lit "accept") then [lit "text/html"] else vs).
Proof.
  split; [reflexivity |]. split; [reflexivity |]. split; [reflexivity |].
  apply (set_then_getAll
           [(lit "accept", lit "a"); (lit "x", lit "1"); (lit "accept", lit "b")]
           (lit "Accept") (lit "text/html") (lit "accept")); reflexivity.
Defined.

(** X3.  Deleting a header leaves no value under its name, so that [has]
    answers false and [get] answers null for it, and leaves the values of
    every other name as they were. *)
Theorem delete_then_lookup (h : Headers.t) (name name' : jsstring)
        (Hname : Headers.is_token name = true)
        (Hname' : Headers.is_token name' = true) :
  exists h' vs,
    Headers.delete h name = Ok h'
    /\ Headers.getAll h name' = Ok vs
    /\ Headers.getAll h' name' = Ok (if same_name name name' then [] else vs)
    /\ Headers.has h' name = Ok false
    /\ Headers.get h' name = Ok None.
Proof.
  exists (Headers.USP.delete h (toLowerCase name)),
         (Headers.USP.getAll h (toLowerCase name')).
  unfold Headers.get.
  rewrite delete_Ok, has_token, !getAll_token by assumption.
  rewrite usp_has_getAll, !usp_getAll_delete, jsstring_eqb_refl.
  repeat split.
Qed.

Lemma delete_then_lookup_witness :
  Headers.is_token (lit "X-A") = true
  /\ Headers.is_token (lit "x-b") = true
  /\ exists h' vs,
      Headers.delete [(lit "x-a", lit "1"); (lit "x-b", lit "2")] (lit "X-A") = Ok h'
      /\ Headers.getAll [(lit "x-a", lit "1"); (lit "x-b", lit "2")] (lit "x-b") = Ok vs
      /\ Headers.getAll h' (lit "x-b")
         = Ok (if same_name (lit "X-A") (lit "x-b") then [] else vs)
      /\ Headers.has h' (lit "X-A") = Ok false
      /\ Headers.get h' (lit "X-A") = Ok None.
Proof.
  split; [reflexivity |]. split; [reflexivity |].
  apply (delete_then_lookup [(lit "x-a", lit "1"); (lit "x-b", lit "2")]
                            (lit "X-A") (lit "x-b")); reflexivity.
Defined.

(** X4.  A header appended under a name the table does not hold yet is
    read back by [get] as it was given, except under the name
    content-encoding, where it is read back in lowercase. *)
Theorem append_then_get (h : Headers.t) (name value : jsstring)
        (Hname : Headers.is_token name = true)
        (Hvalue : Headers.is_value value = true)
        (Habsent : Headers.has h name = Ok false) :
  exists h',
    Headers.append h name value = Ok h'
    /\ Headers.get h' name
       = Ok (Some (if same_name name Headers.content_encoding
                   then toLowerCase value else value)).
Proof.
  exists (Headers.USP.append h (toLowerCase name) value).
  rewrite append_Ok by assumption. split; [reflexivity |].
  rewrite has_token in Habsent by assumption.
  injection Habsent as Habsent. rewrite usp_has_getAll in Habsent.
  unfold Headers.get. rewrite getAll_token by assumption.
  rewrite usp_getAll_append, jsstring_eqb_refl.
  destruct (Headers.USP.getAll h (toLowerCase name)); [| discriminate].
  reflexivity.
Qed.

Lemma append_then_get_witness :
  Headers.is_token (lit "Content-Encoding") = true
  /\ Headers.is_value (lit "GZIP") = true
  /\ Headers.has [(lit "accept", lit "a")] (lit "Content-Encoding") = Ok false
  /\ exists h',
      Headers.append [(lit "accept", lit "a")] (lit "Content-Encoding") (lit "GZIP") = Ok h'
      /\ Headers.get h' (lit "Content-Encoding")
         = Ok (Some (if same_name (lit "Content-Encoding") Headers.content_encoding
                     then toLowerCase (lit "GZIP") else lit "GZIP")).
Proof.
  split; [reflexivity |]. split; [reflexivity |]. split; [reflexivity |].
  apply (append_then_get [(lit "accept", lit "a")] (lit "Content-Encoding")
                         (lit "GZIP")); reflexivity.
Defined.

(** X5.  For a name that is a token, [get] answers null exactly when
    [has] answers false. *)
Theorem get_null_iff_absent (h : Headers.t) (name : jsstring)
        (Hname : Headers.is_token name = true) :
  Headers.get h name = Ok None <-> Headers.has h name = Ok false.
Proof.
  unfold Headers.get. rewrite has_token, getAll_token by assumption.
  rewrite usp_has_getAll. simpl.
  destruct (Headers.USP.getAll h (toLowerCase name)); simpl;
    split; intros H; try reflexivity; discriminate.
Qed.

Lemma get_null_iff_absent_witness :
  Headers.is_token (lit "Location") = true
  /\ (Headers.get [(lit "accept", lit "a")] (lit "Location") = Ok None
      <-> Headers.has [(lit "accept", lit "a")] (lit "Location") = Ok false).
Proof.
  split; [reflexivity |].
  apply (get_null_iff_absent [(lit "accept", lit "a")] (lit "Location")).
  reflexivity.
Defined.

(** X6.  Every table the constructor or [fromRawHeaders] returns holds
    only names that are tokens in lowercase and values that are valid, and
    [append], [set], [delete] and the sort of [keys] keep a table so. *)
Theorem tables_stay_valid :
  (forall init h, Headers.new init = Ok h -> valid_table h)
  /\ (forall raw h, Headers.fromRawHeaders raw = Ok h -> valid_table h)
  /\ (forall h h' name value,
         valid_table h -> Headers.append h name value = Ok h' -> valid_table h')
  /\ (forall h h' name value,
         valid_table h -> Headers.set h name value = Ok h' -> valid_table h')
  /\ (forall h h' name,
         valid_table h -> Headers.delete h name = Ok h' -> valid_table h')
  /\ (forall h, valid_table h -> valid_table (fst (Headers.keys h))).
Proof.
  split; [exact new_valid |].
  split; [intros raw h; apply new_valid |].
  split; [| split; [| split]].
  - intros h h' name value Hh.
    unfold Headers.append, Headers.validateHeaderName, Headers.validateHeaderValue.
    destruct (Headers.is_token name) eqn:Hn; simpl; [| discriminate].
    destruct (Headers.is_value value) eqn:Hv; simpl; [| discriminate].
    intros [= <-]. apply Forall_app. split; [exact Hh |].
    constructor; [now apply stored_lowercased | constructor].
  - intros h h' name value Hh.
    unfold Headers.set, Headers.validateHeaderName, Headers.validateHeaderValue.
    destruct (Headers.is_token name) eqn:Hn; simpl; [| discriminate].
    destruct (Headers.is_value value) eqn:Hv; simpl; [| discriminate].
    intros [= <-]. apply set_valid; [now apply stored_lowercased | exact Hh].
  - intros h h' name Hh.
    unfold Headers.delete, Headers.validateHeaderName.
    destruct (Headers.is_token name); simpl; [| discriminate].
    intros [= <-]. now apply delete_valid.
  - intros h Hh. simpl. now apply sort_valid.
Qed.

(** X7.  On a flat list of odd length the last name has no value: when
    that name is a token, [fromRawHeaders] throws, the slice of one element
    being no name/value tuple; when it is none, the slice is dropped like
    any invalid pair. *)
Theorem fromRawHeaders_odd_length (pairs : list (jsstring * jsstring))
        (name : jsstring) :
  Headers.fromRawHeaders (flatten pairs ++ [name])
  = if Headers.is_token name
    then Throw Headers.PairNotTuple
    else Ok (map lowercase_name (filter valid_pair pairs)).
Proof.
  assert (Hs : Headers.slices (flatten pairs ++ [name]) = map tuple pairs ++ [[name]]).
  { induction pairs as [| [n v] rest IH]; simpl; [reflexivity |].
    now rewrite IH. }
  unfold Headers.fromRawHeaders, Headers.new. simpl.
  rewrite Hs, filter_app, filter_map_tuple. simpl.
  unfold Headers.validateHeaderName.
  destruct (Headers.is_token name); simpl.
  - assert (Hm : forall l, mapM Headers.as_tuple (map tuple l ++ [[name]])
                           = Throw Headers.PairNotTuple).
    { induction l as [| [n v] r IH]; simpl; [reflexivity | now rewrite IH]. }
    now rewrite Hm.
  - rewrite app_nil_r, mapM_as_tuple. simpl.
    apply mapM_validate_valid, forallb_filter.
Qed.

Section SortStability.

Import Headers.

Lemma filter_none (A : Type) (f : A -> bool) (l : list A) :
  Forall (fun x => f x = false) l -> filter f l = [].
Proof.
  induction 1 as [| x r Hx _ IH]; simpl; [reflexivity |]. now rewrite Hx.
Qed.

Lemma cu_lt_neq (a b : jsstring) : cu_lt a b -> a <> b.
Proof. intros H ->. exact (cu_lt_irrefl b H). Qed.

Lemma filter_insert (m : jsstring) (p : jsstring * jsstring) (l : t) :
  StronglySorted name_le l ->
  filter (fun q => jsstring_eqb (fst q) m) (USP.insert p l)
  = filter (fun q => jsstring_eqb (fst q) m) l
    ++ filter (fun q => jsstring_eqb (fst q) m) [p].
Proof.
  induction 1 as [| q rest Hs IH Hq]; [reflexivity |].
  cbn [USP.insert]. destruct (cu_leb (fst q) (fst p)) eqn:E.
  - cbn [filter]. rewrite IH.
    destruct (jsstring_eqb (fst q) m); reflexivity.
  - apply cu_leb_false_lt in E.
    set (f := fun q0 : jsstring * jsstring => jsstring_eqb (fst q0) m).
    change (filter f (p :: q :: rest))
      with (if f p then p :: filter f (q :: rest) else filter f (q :: rest)).
    change (filter f [p]) with (if f p then [p] else []).
    destruct (f p) eqn:Ep; [| now rewrite app_nil_r].
    unfold f in Ep. apply jsstring_eqb_eq in Ep.
    assert (N : filter f (q :: rest) = []).
    { apply filter_none. unfold f. subst m. constructor.
      - apply jsstring_eqb_neq. intros Heq. apply (cu_lt_neq _ _ E). now symmetry.
      - rewrite Forall_forall in *. intros x Hx. apply jsstring_eqb_neq.
        intros Heq. specialize (Hq x Hx). unfold name_le in Hq.
        apply cu_leb_lt_or_eq in Hq. rewrite Heq in Hq.
        destruct Hq as [Hlt | Heq'].
        + apply (cu_lt_irrefl (fst p)). eapply cu_lt_trans; eassumption.
        + rewrite Heq' in E. exact (cu_lt_irrefl _ E). }
    now rewrite N.
Qed.

Lemma filter_fold_insert (m : jsstring) (l acc : t) :
  StronglySorted name_le acc ->
  filter (fun q => jsstring_eqb (fst q) m) (fold_left (fun a p => USP.insert p a) l acc)
  = filter (fun q => jsstring_eqb (fst q) m) acc
    ++ filter (fun q => jsstring_eqb (fst q) m) l.
Proof.
  revert acc. induction l as [| p r IH]; intros acc Hacc; simpl.
  - now rewrite app_nil_r.
  - rewrite IH by now apply insert_sorted.
    rewrite filter_insert by exact Hacc. rewrite <- app_assoc. f_equal.
    simpl. destruct (jsstring_eqb (fst p) m); reflexivity.
Qed.

(** The sort keeps, under every name, the values in their order. *)
Lemma usp_getAll_sort (h : t) (m : jsstring) :
  USP.getAll (USP.sort h) m = USP.getAll h m.
Proof.
  unfold USP.getAll, USP.sort. rewrite filter_fold_insert by constructor.
  reflexivity.
Qed.

Lemma sorted_prefix (a b : t) :
  StronglySorted name_le (a ++ b) -> StronglySorted name_le a.
Proof.
  induction a as [| x r IH]; simpl; intros H; [constructor |].
  inversion H as [| ? ? Hs Hx]; subst. constructor; [now apply IH |].
  apply Forall_app in Hx. tauto.
Qed.

Lemma insert_last (p : jsstring * jsstring) (acc : t) :
  StronglySorted name_le (acc ++ [p]) -> USP.insert p acc = acc ++ [p].
Proof.
  induction acc as [| q r IH]; simpl; intros H; [reflexivity |].
  inversion H as [| ? ? Hs Hq]; subst.
  apply Forall_app in Hq. destruct Hq as [_ Hp].
  inversion Hp as [| ? ? Hqp _]; subst. unfold name_le in Hqp.
  rewrite Hqp. f_equal. now apply IH.
Qed.

Lemma fold_insert_sorted_id (l acc : t) :
  StronglySorted name_le (acc ++ l) ->
  fold_left (fun a p => USP.insert p a) l acc = acc ++ l.
Proof.
  revert acc. induction l as [| p r IH]; intros acc H; simpl.
  - now rewrite app_nil_r.
  - assert (H' : StronglySorted name_le ((acc ++ [p]) ++ r))
      by now rewrite <- app_assoc.
    rewrite insert_last by exact (sorted_prefix _ _ H').
    rewrite IH by exact H'. now rewrite <- app_assoc.
Qed.

Lemma sort_sorted_id (l : t) : StronglySorted name_le l -> USP.sort l = l.
Proof. intros H. unfold USP.sort. now rewrite fold_insert_sorted_id. Qed.

End SortStability.

(** X8.  [keys] sorts the table it is called on: it leaves the same
    pairs, in the order of their names.  The sort is harmless: under
    every name the table holds the same values in the same order as
    before, and a second call finds the table as the first one left it
    and lists the same names. *)
Theorem keys_keeps_values (h : Headers.t) :
  StronglySorted name_le (fst (Headers.keys h))
  /\ Permutation (fst (Headers.keys h)) h
  /\ (forall name, Headers.getAll (fst (Headers.keys h)) name = Headers.getAll h name)
  /\ (forall name, Headers.get (fst (Headers.keys h)) name = Headers.get h name)
  /\ Headers.keys (fst (Headers.keys h)) = Headers.keys h.
Proof.
  assert (G : forall name,
             Headers.getAll (fst (Headers.keys h)) name = Headers.getAll h name).
  { intros name. unfold Headers.getAll. simpl. now rewrite usp_getAll_sort. }
  split; [apply sort_sorted |]. split; [apply sort_perm |].
  split; [exact G |]. split.
  - intros name. unfold Headers.get. now rewrite G.
  - unfold Headers.keys. simpl. now rewrite sort_sorted_id by apply sort_sorted.
Qed.

Section CopyFacts.

Import Headers.

Lemma insert_index_perm (A : Type) (i : N) (e : A) (l : list (N * A)) :
  Permutation (insert_index i e l) ((i, e) :: l).
Proof.
  induction l as [| [j x] r IH]; simpl; [apply Permutation_refl |].
  destruct (j <=? i)%N.
  - rewrite IH. apply perm_swap.
  - apply Permutation_refl.
Qed.

Lemma property_order_perm (A : Type) (entries : list (jsstring * A)) :
  Permutation (property_order entries) entries.
Proof.
  unfold property_order.
  set (step := fun (acc : list (N * (jsstring * A))) (e : jsstring * A) =>
                 match array_index (fst e) with
                 | Some i => insert_index i e acc
                 | None => acc
                 end).
  set (other := fun e : jsstring * A =>
                  match array_index (fst e) with
                  | Some _ => false
                  | None => true
                  end).
  assert (G : forall l acc,
             Permutation (map snd (fold_left step l acc) ++ filter other l)
                         (map snd acc ++ l)).
  { induction l as [| e r IH]; intros acc; simpl.
    - apply Permutation_refl.
    - unfold step at 2, other at 1.
      destruct (array_index (fst e)) as [i |].
      + rewrite IH. rewrite (Permutation_map snd (insert_index_perm _ i e acc)).
        simpl. apply Permutation_middle.
      + rewrite <- Permutation_middle, IH. apply Permutation_middle. }
  exact (G entries []).
Qed.

Lemma mapM_pointwise (E A B : Type) (f : A -> result E B) (g : A -> B) (l : list A) :
  (forall x, In x l -> f x = Ok (g x)) -> mapM f l = Ok (map g l).
Proof.
  induction l as [| x r IH]; intros H; simpl; [reflexivity |].
  rewrite (H x (or_introl eq_refl)). simpl.
  rewrite IH by (intros y Hy; apply H; now right). reflexivity.
Qed.

Lemma usp_getAll_app (a b : t) (m : jsstring) :
  USP.getAll (a ++ b) m = USP.getAll a m ++ USP.getAll b m.
Proof. unfold USP.getAll. now rewrite filter_app, map_app. Qed.

Lemma usp_getAll_record_pairs (r : list (jsstring * list jsstring)) (m : jsstring) :
  USP.getAll (record_pairs r) m
  = flat_map (fun e => if jsstring_eqb (fst e) m then snd e else []) r.
Proof.
  induction r as [| [k vs] rest IH]; simpl; [reflexivity |].
  rewrite usp_getAll_app, IH. f_equal.
  unfold USP.getAll. induction vs as [| v vs' IHv]; simpl.
  - now destruct (jsstring_eqb k m).
  - destruct (jsstring_eqb k m); simpl in *; [now rewrite IHv | exact IHv].
Qed.

Lemma flat_map_perm_distinct (g : jsstring * list jsstring -> list jsstring)
      (m : jsstring) (l l' : list (jsstring * list jsstring)) :
  (forall e, fst e <> m -> g e = []) ->
  Permutation l l' -> NoDup (map fst l) -> flat_map g l = flat_map g l'.
Proof.
  intros Hg Hp. induction Hp as [| x a b Hab IH | x y a | a b c Hab IH1 Hbc IH2];
    intros ND.
  - reflexivity.
  - simpl. inversion ND; subst. now rewrite IH.
  - simpl. inversion ND as [| ? ? Hnotin _]; subst.
    destruct (jsstring_eq_dec (fst x) m) as [Ex | Ex],
             (jsstring_eq_dec (fst y) m) as [Ey | Ey].
    + exfalso. apply Hnotin. left. congruence.
    + now rewrite (Hg y Ey).
    + now rewrite (Hg x Ex).
    + now rewrite (Hg x Ex), (Hg y Ey).
  - rewrite IH1 by exact ND. apply IH2.
    eapply Permutation_NoDup; [apply Permutation_map; exact Hab | exact ND].
Qed.

Lemma flat_map_unique_key (V : jsstring -> list jsstring) (m : jsstring)
      (ks : list jsstring) :
  NoDup ks ->
  flat_map (fun e => if jsstring_eqb (fst e) m then snd e else [])
           (map (fun k => (k, V k)) ks)
  = if existsb (jsstring_eqb m) ks then V m else [].
Proof.
  induction 1 as [| k r Hk Hr IH]; simpl; [reflexivity |].
  rewrite IH. destruct (jsstring_eqb k m) eqn:E.
  - apply jsstring_eqb_eq in E. subst k. rewrite jsstring_eqb_refl. simpl.
    destruct (existsb (jsstring_eqb m) r) eqn:Ex.
    + apply existsb_eqb_In in Ex. contradiction.
    + apply app_nil_r.
  - assert (jsstring_eqb m k = false) as ->.
    { apply jsstring_eqb_neq. apply jsstring_eqb_neq in E. congruence. }
    reflexivity.
Qed.

Lemma usp_getAll_absent (h : t) (m : jsstring) :
  ~ In m (map fst h) -> USP.getAll h m = [].
Proof.
  intros H. unfold USP.getAll. rewrite filter_none; [reflexivity |].
  rewrite Forall_forall. intros p Hp. apply jsstring_eqb_neq. intros Heq.
  apply H. rewrite <- Heq. now apply in_map.
Qed.

Lemma usp_getAll_In (h : t) (m v : jsstring) :
  In v (USP.getAll h m) -> In (m, v) h.
Proof.
  unfold USP.getAll. intros H. apply in_map_iff in H.
  destruct H as ([n w] & <- & Hp). apply filter_In in Hp.
  destruct Hp as [Hp E]. simpl in E. apply jsstring_eqb_eq in E. now subst.
Qed.

Lemma stored_valid_pair (p : jsstring * jsstring) : stored p -> valid_pair p = true.
Proof.
  intros (Hn & _ & Hv). unfold valid_pair. now rewrite Hn, Hv.
Qed.

Lemma flat_map_nil (A B : Type) (g : A -> list B) (l : list A) :
  Forall (fun e => g e = []) l -> flat_map g l = [].
Proof.
  induction 1 as [| e r He _ IH]; simpl; [reflexivity |]. now rewrite He, IH.
Qed.

Lemma assigned_In (A : Type) (entries : list (jsstring * A)) (e : jsstring * A) :
  In e (assigned entries) <-> In e entries /\ fst e <> lit "__proto__".
Proof.
  unfold assigned. rewrite filter_In, negb_true_iff.
  split; intros [H1 H2]; (split; [exact H1 | now apply jsstring_eqb_neq]).
Qed.

Lemma assigned_NoDup (A : Type) (entries : list (jsstring * A)) :
  NoDup (map fst entries) -> NoDup (map fst (assigned entries)).
Proof.
  induction entries as [| e r IH]; simpl; intros ND; [constructor |].
  inversion ND as [| ? ? Hnotin Hr]; subst.
  destruct (negb (jsstring_eqb (fst e) (lit "__proto__"))); [| now apply IH].
  simpl. constructor; [| now apply IH].
  intros Hin. apply Hnotin. apply in_map_iff in Hin.
  destruct Hin as (x & Hx & Hin). apply assigned_In in Hin.
  rewrite <- Hx. apply in_map, Hin.
Qed.

(** What is read under a name other than [__proto__] is the same with
    and without the entry the assignment loses. *)
Lemma flat_map_assigned (g : jsstring * list jsstring -> list jsstring)
      (m : jsstring) (l : list (jsstring * list jsstring)) :
  (forall e, fst e <> m -> g e = []) -> m <> lit "__proto__" ->
  flat_map g (assigned l) = flat_map g l.
Proof.
  intros Hg Hm. induction l as [| e r IH]; simpl; [reflexivity |].
  destruct (jsstring_eqb (fst e) (lit "__proto__")) eqn:E; simpl.
  - apply jsstring_eqb_eq in E. rewrite (Hg e) by congruence. exact IH.
  - now rewrite IH.
Qed.

(** On a valid table [raw] does not throw. *)
Lemma raw_valid (h : t) :
  valid_table h ->
  raw h = Ok (USP.sort h,
              property_order
                (assigned (map (fun k => (k, USP.getAll (USP.sort h) k))
                               (snd (keys h))))).
Proof.
  intros Hv. unfold raw.
  change (keys h) with (USP.sort h, snd (keys h)). cbv iota beta.
  rewrite (mapM_pointwise _ _ _ _ (fun k => (k, USP.getAll (USP.sort h) k))).
  - reflexivity.
  - intros k Hk. apply (proj2 (proj2 (keys_spec h))) in Hk.
    apply in_map_iff in Hk. destruct Hk as (p & <- & Hp).
    unfold valid_table in Hv. rewrite Forall_forall in Hv.
    destruct (Hv p Hp) as (Hn & Hl & _).
    rewrite getAll_token by exact Hn. now rewrite Hl.
Qed.

End CopyFacts.

(** X9.  Constructing a table from a valid table does not throw.  The
    copy holds under every name other than [__proto__] the values of the
    original in their order, and nothing under [__proto__]: the record
    the values go through loses that key. *)
Theorem copy_keeps_values (h : Headers.t) (Hvalid : valid_table h) :
  exists h',
    Headers.new (Headers.InitHeaders h) = Ok h'
    /\ valid_table h'
    /\ Headers.getAll h' (lit "__proto__") = Ok []
    /\ forall name,
        toLowerCase name <> lit "__proto__" ->
        Headers.getAll h' name = Headers.getAll h name.
Proof.
  set (hs := Headers.USP.sort h).
  set (r := map (fun k => (k, Headers.USP.getAll hs k)) (snd (Headers.keys h))).
  set (own := property_order (Headers.assigned r)).
  assert (Hown : forall e, In e own -> In e r /\ fst e <> lit "__proto__").
  { intros e He. apply assigned_In.
    exact (Permutation_in _ (property_order_perm _ _) He). }
  assert (Hstored : Forall stored (record_pairs own)).
  { rewrite Forall_forall. intros [n v] Hp.
    unfold record_pairs in Hp. apply in_flat_map in Hp.
    destruct Hp as ([k vs] & He & Hin). simpl in Hin.
    apply in_map_iff in Hin. destruct Hin as (w & [= <- <-] & Hw).
    apply Hown in He. destruct He as [He _].
    unfold r in He. apply in_map_iff in He. destruct He as (k' & [= <- <-] & _).
    apply usp_getAll_In in Hw.
    pose proof (sort_valid h Hvalid) as Hs. unfold valid_table in Hs.
    rewrite Forall_forall in Hs. exact (Hs _ Hw). }
  assert (Hnew : Headers.new (Headers.InitHeaders h) = Ok (record_pairs own)).
  { unfold Headers.new, Headers.init_pairs. rewrite raw_valid by exact Hvalid.
    simpl. fold hs. fold r. fold own. fold (record_pairs own).
    rewrite mapM_validate_valid.
    - f_equal. etransitivity; [| apply map_id].
      apply map_ext_in. intros [n v] Hp.
      rewrite Forall_forall in Hstored. destruct (Hstored _ Hp) as (_ & Hl & _).
      unfold lowercase_name. simpl in *. now rewrite Hl.
    - apply forallb_forall. intros p Hp. apply stored_valid_pair.
      rewrite Forall_forall in Hstored. now apply Hstored. }
  exists (record_pairs own).
  split; [exact Hnew |]. split; [exact Hstored |].
  destruct (keys_spec h) as (_ & ND & Hin).
  assert (NDr : NoDup (map fst r)).
  { unfold r. rewrite map_map. simpl. now rewrite map_id. }
  split.
  - rewrite getAll_token by reflexivity. f_equal.
    change (toLowerCase (lit "__proto__")) with (lit "__proto__").
    rewrite usp_getAll_record_pairs.
    apply flat_map_nil. rewrite Forall_forall. intros e He.
    apply Hown in He. destruct He as [_ He].
    apply jsstring_eqb_neq in He. now rewrite He.
  - intros name Hname. unfold Headers.getAll.
    destruct (Headers.validateHeaderName name); simpl; [| reflexivity].
    f_equal. set (m := toLowerCase name) in *.
    rewrite usp_getAll_record_pairs.
    assert (Hg : forall e : jsstring * list jsstring,
               fst e <> m -> (if jsstring_eqb (fst e) m then snd e else []) = []).
    { intros e He. now apply jsstring_eqb_neq in He as ->. }
    unfold own.
    rewrite <- (flat_map_perm_distinct _ m (Headers.assigned r)
                                       (property_order (Headers.assigned r))).
    + rewrite (flat_map_assigned _ m r Hg Hname).
      unfold r. rewrite flat_map_unique_key by exact ND.
      destruct (existsb (jsstring_eqb m) (snd (Headers.keys h))) eqn:E.
      * unfold hs. apply usp_getAll_sort.
      * symmetry. apply usp_getAll_absent. intros Hm.
        apply Hin in Hm. apply existsb_eqb_In in Hm. congruence.
    + exact Hg.
    + apply Permutation_sym, property_order_perm.
    + now apply assigned_NoDup.
Qed.

Lemma copy_keeps_values_witness :
  valid_table [(lit "x-b", lit "1"); (lit "__proto__", lit "p"); (lit "10", lit "a");
               (lit "9", lit "b"); (lit "x-b", lit "2")]
  /\ exists h',
      Headers.new (Headers.InitHeaders
                     [(lit "x-b", lit "1"); (lit "__proto__", lit "p");
                      (lit "10", lit "a"); (lit "9", lit "b");
                      (lit "x-b", lit "2")]) = Ok h'
      /\ valid_table h'
      /\ Headers.getAll h' (lit "__proto__") = Ok []
      /\ forall name,
          toLowerCase name <> lit "__proto__" ->
          Headers.getAll h' name
          = Headers.getAll [(lit "x-b", lit "1"); (lit "__proto__", lit "p");
                            (lit "10", lit "a"); (lit "9", lit "b");
                            (lit "x-b", lit "2")] name.
Proof.
  assert (V : valid_table [(lit "x-b", lit "1"); (lit "__proto__", lit "p");
                           (lit "10", lit "a"); (lit "9", lit "b");
                           (lit "x-b", lit "2")]).
  { repeat constructor. }
  split; [exact V |]. exact (copy_keeps_values _ V).
Defined.

(** ** More facts about blobs *)

Section BlobMore.

Import Blob.

Lemma normalise_wf (p : BlobPart) : input_wf p -> wf_part (normalise p).
Proof. destruct p; simpl; auto. Qed.

Lemma normalise_content (p : BlobPart) :
  part_content (normalise p) = input_bytes p.
Proof.
  destruct p; simpl; unfold part_content; simpl; try apply app_nil_r.
  reflexivity.
Qed.

Lemma new_wf (ps : list BlobPart) (ty : option jsstring) :
  Forall input_wf ps -> wf (new ps ty).
Proof.
  intros H. unfold new. apply wf_mk. split; [reflexivity |].
  induction H as [| p r Hp _ IH]; simpl; constructor;
    [now apply normalise_wf | exact IH].
Qed.

Lemma new_content (ps : list BlobPart) (ty : option jsstring) :
  content (new ps ty) = flat_map input_bytes ps.
Proof.
  unfold content, new. rewrite stream_mk, content_parts.
  induction ps as [| p r IH]; simpl; [reflexivity |].
  now rewrite normalise_content, IH.
Qed.

Lemma adjustOffset_range (x n : Z) :
  (0 <= n)%Z -> (0 <= adjustOffset x n <= n)%Z.
Proof.
  unfold adjustOffset.
  destruct (x <? 0)%Z eqn:E; [apply Z.ltb_lt in E | apply Z.ltb_ge in E]; lia.
Qed.

Lemma adjustOffset_fixed (x n : Z) :
  (0 <= x <= n)%Z -> adjustOffset x n = x.
Proof.
  intros H. unfold adjustOffset.
  destruct (x <? 0)%Z eqn:E; [apply Z.ltb_lt in E; lia | lia].
Qed.

Lemma buffer_slice_length (buf : bytes) (s e : Z) :
  Z.of_nat (length (buffer_slice buf s e))
  = Z.max (adjustOffset e (Z.of_nat (length buf))
           - adjustOffset s (Z.of_nat (length buf))) 0.
Proof.
  unfold buffer_slice.
  pose proof (adjustOffset_range s (Z.of_nat (length buf)) (Nat2Z.is_nonneg _)) as Hs.
  pose proof (adjustOffset_range e (Z.of_nat (length buf)) (Nat2Z.is_nonneg _)) as He.
  destruct (adjustOffset s _ <? adjustOffset e _)%Z eqn:E.
  - apply Z.ltb_lt in E. rewrite length_firstn, length_skipn. lia.
  - apply Z.ltb_ge in E. simpl. lia.
Qed.

Lemma buffer_slice_adjusted (buf : bytes) (s e : Z) :
  buffer_slice buf (adjustOffset s (Z.of_nat (length buf)))
               (adjustOffset e (Z.of_nat (length buf)))
  = buffer_slice buf s e.
Proof.
  unfold buffer_slice.
  rewrite !(adjustOffset_fixed (adjustOffset _ _))
    by (apply adjustOffset_range, Nat2Z.is_nonneg).
  reflexivity.
Qed.

Lemma lower_unit_not_capital (c : N) : is_capital (lower_unit c) = false.
Proof.
  unfold lower_unit, is_capital.
  destruct ((65 <=? c) && (c <=? 90))%N eqn:E1.
  - apply andb_true_iff in E1. destruct E1 as [A B]. apply N.leb_le in A, B.
    apply andb_false_iff. right. apply N.leb_gt. lia.
  - destruct ((192 <=? c) && (c <=? 222) && negb (c =? 215))%N eqn:E2.
    + rewrite !andb_true_iff in E2. destruct E2 as [[A _] _]. apply N.leb_le in A.
      apply andb_false_iff. right. apply N.leb_gt. lia.
    + destruct (c =? 8490)%N; [reflexivity | exact E1].
Qed.

Lemma normalise_type_plain (ty : option jsstring) :
  forallb is_printable (normalise_type ty) = true
  /\ forallb (fun c => negb (is_capital c)) (normalise_type ty) = true.
Proof.
  destruct ty as [s |]; simpl; [| split; reflexivity].
  destruct (forallb is_printable (toLowerCase s)) eqn:E; [| split; reflexivity].
  split; [exact E |].
  apply forallb_forall. intros c Hc. unfold toLowerCase in Hc.
  apply in_map_iff in Hc. destruct Hc as (d & <- & _).
  now rewrite lower_unit_not_capital.
Qed.

End BlobMore.

(** X10.  A payload constructed from buffers, views, array buffers,
    strings and payloads that keep the size invariant keeps it too, and
    [data] reads it back as the bytes of the parts one after the other, a
    string in UTF-8. *)
Theorem new_then_data (ps : list Blob.BlobPart) (ty : option jsstring)
        (Hparts : Forall input_wf ps) :
  wf (Blob.new ps ty)
  /\ Blob.size (Blob.new ps ty) = Z.of_nat (length (flat_map input_bytes ps))
  /\ Blob.data (Blob.new ps ty) = Ok (flat_map input_bytes ps).
Proof.
  pose proof (new_wf ps ty Hparts) as Hwf.
  pose proof (wf_content_length _ Hwf) as Hlen.
  rewrite (new_content ps ty) in Hlen.
  split; [exact Hwf |]. split; [now symmetry |].
  rewrite <- (new_content ps ty). apply data_exact.
  now rewrite (new_content ps ty).
Qed.

Lemma new_then_data_witness :
  Forall input_wf [Blob.InString (lit "hi"); Blob.InBlob two_buffers;
                   Blob.InBuffer [7]%N]
  /\ Blob.data (Blob.new [Blob.InString (lit "hi"); Blob.InBlob two_buffers;
                          Blob.InBuffer [7]%N] None)
     = Ok [104; 105; 1; 2; 3; 4; 5; 6; 7]%N.
Proof.
  assert (H : Forall input_wf [Blob.InString (lit "hi"); Blob.InBlob two_buffers;
                               Blob.InBuffer [7]%N]).
  { repeat constructor. }
  split; [exact H |].
  exact (proj2 (proj2 (new_then_data _ None H))).
Defined.

(** X11.  Slicing a payload that holds one buffer is right for every
    start and end: the slice keeps the size invariant and reads back as
    the same range of the buffer that [Buffer.slice] gives. *)
Theorem slice_of_one_buffer (buf : bytes) (ty : option jsstring)
        (start end_ : Z) (ty' : jsstring) :
  wf (Blob.slice (Blob.new [Blob.InBuffer buf] ty) start end_ ty')
  /\ Blob.data (Blob.slice (Blob.new [Blob.InBuffer buf] ty) start end_ ty')
     = Ok (Blob.buffer_slice buf start end_).
Proof.
  unfold Blob.new. simpl map.
  assert (Hsum : Blob.sum_sizes [Blob.PBuffer buf] = Z.of_nat (length buf))
    by reflexivity.
  rewrite Hsum, slice_mk. cbv zeta.
  set (n := Z.of_nat (length buf)).
  fold (Blob.adjustOffset start n). fold (Blob.adjustOffset end_ n).
  pose proof (adjustOffset_range start n (Nat2Z.is_nonneg _)) as Hs.
  pose proof (adjustOffset_range end_ n (Nat2Z.is_nonneg _)) as He.
  set (s := Blob.adjustOffset start n) in *.
  set (e := Blob.adjustOffset end_ n) in *.
  pose proof (buffer_slice_length buf start end_) as Hlen.
  fold n in Hlen. fold s in Hlen. fold e in Hlen.
  pose proof (buffer_slice_adjusted buf start end_) as Hadj.
  fold n in Hadj. fold s in Hadj. fold e in Hadj.
  cbn [Blob.slice_loop Blob.part_size]. fold n.
  destruct (negb (s =? 0)%Z && (n <=? s)%Z) eqn:E.
  - apply andb_true_iff in E. destruct E as [_ E]. apply Z.leb_le in E.
    assert (Hempty : Blob.buffer_slice buf start end_ = []).
    { apply length_zero_iff_nil. lia. }
    rewrite Hempty. replace (Z.max (e - s) 0) with 0%Z by lia.
    split; [apply wf_mk; split; [reflexivity | constructor] | reflexivity].
  - assert (Hmin : Z.min n e = e) by lia. rewrite Hmin.
    cbn [Blob.slice_part]. rewrite Hadj.
    assert (Hparts :
              (Blob.PBuffer (Blob.buffer_slice buf start end_)
               :: (if (Z.max (e - s) 0
                       <=? 0 + Blob.part_size
                                 (Blob.PBuffer (Blob.buffer_slice buf start end_)))%Z
                   then [] else []))
              = [Blob.PBuffer (Blob.buffer_slice buf start end_)]).
    { match goal with
      | |- context [if ?c then _ else _] => destruct c
      end; reflexivity. }
    cbn [Blob.slice_loop] in *. rewrite Hparts.
    assert (Hwf : wf (Blob.mk (Blob.normalise_type (Some ty')) (Z.max (e - s) 0)
                              [Blob.PBuffer (Blob.buffer_slice buf start end_)])).
    { apply wf_mk. split; [| repeat constructor].
      unfold Blob.sum_sizes. simpl. lia. }
    split; [exact Hwf |].
    rewrite data_exact.
    + unfold content. simpl. now rewrite app_nil_r.
    + now apply wf_content_length.
Qed.

(** X12.  On a payload that keeps the size invariant at every level,
    [slice] called without arguments gives a payload of the same size that
    reads back as the same bytes. *)
Theorem slice_without_arguments (b : Blob.t) (Hwf : wf b) :
  Blob.size (Blob.slice_args b None None None) = Blob.size b
  /\ Blob.data (Blob.slice_args b None None None) = Blob.data b
  /\ Blob.data b = Ok (content b).
Proof.
  unfold Blob.slice_args.
  destruct (slice_whole_wf b Hwf []) as [Hs Hc].
  destruct (slice_whole_data_wf b [] Hwf) as [Hd Hd'].
  split; [exact Hs |]. split; [now rewrite Hd, Hd' | exact Hd].
Qed.

Lemma slice_without_arguments_witness :
  wf two_buffers
  /\ Blob.data (Blob.slice_args two_buffers None None None)
     = Blob.data two_buffers.
Proof.
  assert (H : wf two_buffers) by (repeat split).
  split; [exact H |].
  exact (proj1 (proj2 (slice_without_arguments two_buffers H))).
Defined.

(** X13.  The size of a slice is the distance between the clamped end
    and the clamped start, or 0 when the end comes first: it is never
    negative and, the size of the payload sliced not being negative
    either, never more than that size. *)
Theorem slice_size_clamped (b : Blob.t) (start end_ : Z) (ty : jsstring)
        (Hsize : (0 <= Blob.size b)%Z) :
  Blob.size (Blob.slice b start end_ ty)
  = Z.max (clamp (Blob.size b) end_ - clamp (Blob.size b) start) 0
  /\ (0 <= Blob.size (Blob.slice b start end_ ty) <= Blob.size b)%Z.
Proof.
  destruct b as [ty0 sz ps]. rewrite slice_mk. cbv zeta. simpl Blob.size in *.
  unfold clamp. split; [reflexivity |].
  destruct (start <? 0)%Z eqn:E1; [apply Z.ltb_lt in E1 | apply Z.ltb_ge in E1];
    (destruct (end_ <? 0)%Z eqn:E2; [apply Z.ltb_lt in E2 | apply Z.ltb_ge in E2]);
    lia.
Qed.

Lemma slice_size_clamped_witness :
  (0 <= Blob.size two_buffers)%Z
  /\ Blob.size (Blob.slice two_buffers (-2) 100 []) = 2%Z.
Proof.
  assert (H : (0 <= Blob.size two_buffers)%Z) by (vm_compute; discriminate).
  split; [exact H |].
  exact (proj1 (slice_size_clamped two_buffers (-2) 100 [] H)).
Defined.

(** X14.  The type of a payload, constructed or sliced, holds printable
    ASCII only and no capital letter. *)
Theorem type_is_plain :
  (forall ps ty,
      forallb Blob.is_printable (Blob.type (Blob.new ps ty)) = true
      /\ forallb (fun c => negb (is_capital c)) (Blob.type (Blob.new ps ty)) = true)
  /\ (forall b start end_ ty,
         forallb Blob.is_printable (Blob.type (Blob.slice b start end_ ty)) = true
         /\ forallb (fun c => negb (is_capital c))
                    (Blob.type (Blob.slice b start end_ ty)) = true).
Proof.
  split.
  - intros ps ty. apply normalise_type_plain.
  - intros [ty0 sz ps] start end_ ty. rewrite slice_mk. apply normalise_type_plain.
Qed.

(** ** More facts about the engine *)

Section EngineMore.

Import Request Engine.

Variable version : jsstring.

Lemma unsettled_rejected (r : Request.t) (st : State) (e : Error) :
  unsettled r st = Rejected e -> e = TimeoutError (url r).
Proof.
  unfold unsettled. destruct (truthy_number _); [| discriminate].
  now intros [= <-].
Qed.

Ltac timed_out :=
  simpl; intros H; apply unsettled_rejected in H; now subst.

Lemma attempt_rejection (recurse : Request.t -> State -> Outcome * State)
      (ex : Exchange) (r : Request.t) (st : State) (e : Error) :
  fst (attempt version recurse ex r st) = Rejected e ->
  match e with
  | AbortError => exists s, _signal r = Some s /\ aborted s = true
  | TimeoutError u => u = url r
  | HttpError code m u =>
      u = url r
      /\ exists msg,
          ex = Respond msg
          /\ Response.ending msg = Response.StreamError m
          /\ code = match Response.statusCode_ msg with
                    | Some c => c
                    | None => 200%Z
                    end
  | TransportError x => ex = Fail x
  end.
Proof.
  unfold attempt.
  destruct (prepare_headers version r) as [h |]; [| discriminate].
  destruct (Headers.raw h) as [[h' raw] |]; [| discriminate].
  cbv zeta.
  destruct (match _signal (with_headers r h') with
            | Some s => aborted s
            | None => false
            end) eqn:Hab.
  { simpl. intros [= <-]. simpl in Hab.
    destruct (_signal r) as [sg |]; [| discriminate]. now exists sg. }
  destruct (written (_body (with_headers r h'))) as [chunk |]; [| timed_out].
  destruct (match chunk with
            | Some c => negb (writable c)
            | None => false
            end) eqn:Hwrite; [timed_out |].
  destruct ex as [msg | x |]; [| simpl; now intros [= <-] | timed_out].
  destruct (Headers.fromRawHeaders (Response.rawHeaders msg)) as [headers |];
    [| timed_out].
  destruct (Headers.get headers (lit "Location")) as [location |]; [| timed_out].
  match goal with
  | |- context [if ?c then _ else _] => destruct c
  end.
  - match goal with
    | |- context [Request.new ?u ?o ?d] =>
        destruct (Request.new u o d) as [[req | e'] d']
    end; [| timed_out].
    match goal with
    | |- context [recurse ?q ?s] => destruct (recurse q s) as [o st']
    end.
    destruct o; simpl; try discriminate; timed_out.
  - destruct (Response.ending msg) as [| m] eqn:Hend; [discriminate |].
    simpl. intros [= <-]. split; [reflexivity |].
    exists msg. split; [reflexivity |]. split; [exact Hend |].
    unfold Response.statusCode.
    now rewrite (proj1 (proj2 (fold_chunk_buf (Response.chunks msg) _))).
Qed.

(** With redirects not followed, one run sends one request at most and
    resolves with the message of the first exchange. *)
Lemma attempt_no_follow (recurse : Request.t -> State -> Outcome * State)
      (ex : Exchange) (r : Request.t) (st : State) :
  truthy_follow (read (follow (defaults st))) = false ->
  (length (log (snd (attempt version recurse ex r st))) <= S (length (log st)))%nat
  /\ match fst (attempt version recurse ex r st) with
     | Resolved res => ex = Respond (Response.message res)
     | _ => True
     end.
Proof.
  intros Hoff. unfold attempt.
  destruct (prepare_headers version r) as [h |]; [| simpl; auto].
  destruct (Headers.raw h) as [[h' raw] |]; [| simpl; auto].
  cbv zeta.
  destruct (match _signal (with_headers r h') with
            | Some s => aborted s
            | None => false
            end); [simpl; auto |].
  assert (U : forall q s, match unsettled q s with
                          | Resolved res => ex = Respond (Response.message res)
                          | _ => True
                          end).
  { intros q s. unfold unsettled. now destruct (truthy_number _). }
  destruct (written (_body (with_headers r h'))) as [chunk |];
    [| simpl; split; [lia | apply U]].
  destruct (match chunk with
            | Some c => negb (writable c)
            | None => false
            end) eqn:Hwrite; [simpl; split; [lia | apply U] |].
  assert (L : (length (log st ++ [{| sent_by := with_headers r h';
                                     sent_headers := raw;
                                     sent_body := chunk |}])
               <= S (length (log st)))%nat)
    by (rewrite length_app; simpl; lia).
  destruct ex as [msg | x |]; [| simpl; auto | simpl; split; [exact L | apply U]].
  destruct (Headers.fromRawHeaders (Response.rawHeaders msg)) as [headers |];
    [| simpl; split; [exact L | apply U]].
  destruct (Headers.get headers (lit "Location")) as [location |];
    [| simpl; split; [exact L | apply U]].
  cbn [defaults]. rewrite Hoff, andb_false_r. cbn [andb].
  destruct (Response.ending msg); simpl; split; try exact L; try exact I.
  now rewrite (proj1 (proj2 (fold_chunk_buf (Response.chunks msg) _))).
Qed.

Lemma new_request (u : URL) (o d d' : RequestData) (req : Request.t) :
  Request.new u o d = (Ok req, d') ->
  d' = assign d o
  /\ _method req = options_method (assign d o)
  /\ _body req = read (body (assign d o)).
Proof.
  unfold Request.new. destruct (Headers.new _) as [h |]; simpl; [| discriminate].
  intros [= <- <-]. repeat split.
Qed.

Lemma new_request_defaults (u : URL) (o d : RequestData) :
  snd (Request.new u o d) = assign d o.
Proof. reflexivity. Qed.

Lemma hops_none (r : Request.t) (st : State) : hops_after r st st.
Proof. split; [reflexivity |]. exists []. now rewrite app_nil_r. Qed.

Lemma attempt_hops (recurse : Request.t -> State -> Outcome * State)
      (ex : Exchange) (r : Request.t) (st : State) :
  (forall q s, hops_after q s (snd (recurse q s))) ->
  hops_after r st (snd (attempt version recurse ex r st)).
Proof.
  intros IH. unfold attempt.
  destruct (prepare_headers version r) as [h |]; [| apply hops_none].
  destruct (Headers.raw h) as [[h' raw] |]; [| apply hops_none].
  cbv zeta.
  destruct (match _signal (with_headers r h') with
            | Some s => aborted s
            | None => false
            end); [apply hops_none |].
  destruct (written (_body (with_headers r h'))) as [chunk |]; [| apply hops_none].
  destruct (match chunk with
            | Some c => negb (writable c)
            | None => false
            end) eqn:Hwrite; [apply hops_none |].
  set (first := {| sent_by := with_headers r h'; sent_headers := raw;
                   sent_body := chunk |}).
  assert (One : forall sk, hops_after r st {| defaults := defaults st;
                                              log := log st ++ [first];
                                              sinks := sk |}).
  { intros sk. split; [reflexivity |]. exists [first]. repeat split. constructor. }
  destruct ex as [msg | x |]; [| apply One | apply One].
  destruct (Headers.fromRawHeaders (Response.rawHeaders msg)) as [headers |];
    [| apply One].
  destruct (Headers.get headers (lit "Location")) as [location |]; [| apply One].
  match goal with
  | |- context [if ?c then _ else _] => destruct c
  end.
  - match goal with
    | |- context [Request.new ?u ?o ?d] =>
        pose proof (new_request u o d) as Hnew;
        pose proof (new_request_defaults u o d) as Hd;
        destruct (Request.new u o d) as [[req | e'] d']
    end.
    + destruct (Hnew d' req eq_refl) as (-> & Hm & Hb). clear Hnew Hd.
      match goal with
      | |- context [recurse ?q ?s] =>
          specialize (IH q s); destruct (recurse q s) as [o st']
      end.
      destruct IH as (Hmeth & new & Hlog & Hhops). simpl in Hmeth, Hlog, Hhops.
      assert (Hbody : _body req = _body r).
      { rewrite Hb. simpl. destruct (_body r); reflexivity. }
      assert (Hmethod : _method req = options_method (defaults st)).
      { rewrite Hm. unfold options_method. simpl.
        destruct (method (defaults st)); reflexivity. }
      assert (Hres : hops_after r st st').
      { split.
        - rewrite Hmeth. simpl. destruct (method (defaults st)); reflexivity.
        - exists (first :: new). rewrite Hlog, <- app_assoc. split; [reflexivity |].
          simpl. split; [reflexivity |]. split; [reflexivity |].
          destruct new as [| s more]; [constructor |].
          destruct Hhops as (H1 & H2 & H3). simpl in H1, H2.
          constructor.
          + split; [now rewrite H1 | now rewrite H2].
          + rewrite Forall_forall in *. intros x Hx.
            destruct (H3 x Hx) as [Hx1 Hx2]. split.
            * rewrite Hx1. unfold options_method. simpl.
              destruct (method (defaults st)); reflexivity.
            * now rewrite Hx2. }
      destruct o; exact Hres.
    + simpl in Hd. subst d'. simpl. split.
      * simpl. destruct (method (defaults st)); reflexivity.
      * exists [first]. repeat split. constructor.
  - destruct (Response.ending msg); apply One.
Qed.

Lemma exec_hops (script : list Exchange) :
  forall r st, hops_after r st (snd (exec version script r st)).
Proof.
  induction script as [| ex rest IH]; intros r st; simpl.
  - apply attempt_hops. intros q s. apply hops_none.
  - apply attempt_hops, IH.
Qed.

Lemma usp_has_In (h : Headers.t) (k : jsstring) :
  Headers.USP.has h k = true <-> In k (map fst h).
Proof.
  unfold Headers.USP.has. rewrite existsb_exists, in_map_iff. split.
  - intros (p & Hp & E). apply jsstring_eqb_eq in E. now exists p.
  - intros (p & E & Hp). exists p. split; [exact Hp | now apply jsstring_eqb_eq].
Qed.

Lemma get_truthy_has (h : Headers.t) (name : jsstring) (v : option jsstring) :
  Headers.get h name = Ok v -> truthy_string v = true ->
  Headers.USP.has h (toLowerCase name) = true.
Proof.
  unfold Headers.get, Headers.getAll, Headers.validateHeaderName.
  destruct (Headers.is_token name); simpl; [| discriminate].
  rewrite usp_has_getAll.
  destruct (Headers.USP.getAll h (toLowerCase name)); [| reflexivity].
  intros [= <-]. discriminate.
Qed.

Lemma set_has (h h' : Headers.t) (name value : jsstring) :
  Headers.set h name value = Ok h' ->
  Headers.USP.has h' (toLowerCase name) = true.
Proof.
  unfold Headers.set, Headers.validateHeaderName, Headers.validateHeaderValue.
  destruct (Headers.is_token name); simpl; [| discriminate].
  destruct (Headers.is_value value); simpl; [| discriminate].
  intros [= <-]. now rewrite usp_has_getAll, usp_getAll_set, jsstring_eqb_refl.
Qed.

Lemma append_has (h h' : Headers.t) (name value k : jsstring) :
  Headers.append h name value = Ok h' ->
  (Headers.USP.has h k = true \/ k = toLowerCase name) ->
  Headers.USP.has h' k = true.
Proof.
  unfold Headers.append, Headers.validateHeaderName, Headers.validateHeaderValue.
  destruct (Headers.is_token name); simpl; [| discriminate].
  destruct (Headers.is_value value); simpl; [| discriminate].
  intros [= <-]. rewrite !usp_has_In. unfold Headers.USP.append.
  rewrite map_app, in_app_iff. simpl. intros [H | ->]; auto.
Qed.

Lemma prepare_headers_has (r : Request.t) (h : Headers.t) :
  prepare_headers version r = Ok h ->
  Headers.USP.has h (lit "user-agent") = true
  /\ match _body r with
     | Some b =>
         truthy_body (Some b) = true -> isObject b = true ->
         Headers.USP.has h (lit "content-type") = true
     | None => True
     end.
Proof.
  unfold prepare_headers.
  destruct (Headers.get (_headers r) (lit "user-agent")) as [agent |] eqn:Ha;
    simpl; [| discriminate].
  assert (H1 : forall h1,
             (if truthy_string agent then Ok (_headers r)
              else Headers.set (_headers r) (lit "user-agent")
                               (RIKUESUTO_USER_AGENT version)) = Ok h1 ->
             Headers.USP.has h1 (lit "user-agent") = true).
  { intros h1. destruct (truthy_string agent) eqn:Ht.
    - intros [= <-]. exact (get_truthy_has _ _ _ Ha Ht).
    - intros Hs. exact (set_has _ _ _ _ Hs). }
  destruct (if truthy_string agent then _ else _) as [h1 |]; simpl; [| discriminate].
  specialize (H1 h1 eq_refl).
  destruct (Headers.get h1 (lit "content-type")) as [contentType |] eqn:Hc;
    simpl; [| discriminate].
  destruct (truthy_string contentType) eqn:Ht; cbn [negb andb].
  - intros [= <-]. split; [exact H1 |].
    destruct (_body r); [| exact I]. intros _ _.
    exact (get_truthy_has _ _ _ Hc Ht).
  - destruct (_body r) as [b |] eqn:Eb.
    + destruct (truthy_body (Some b)) eqn:Hb.
      * destruct (isObject b) eqn:Ho.
        -- intros Happ. split.
           ++ apply (append_has _ _ _ _ _ Happ). now left.
           ++ intros _ _. apply (append_has _ _ _ _ _ Happ). now right.
        -- intros [= <-]. split; [exact H1 | intros _ Hx; discriminate Hx].
      * intros [= <-]. split; [exact H1 |].
        intros Hx. change (truthy_body (Some b) = true) in Hx. congruence.
    + destruct (truthy_body None); intros [= <-]; now split.
Qed.

Lemma mapM_keys (g : jsstring -> result Headers.error (list jsstring))
      (ks : list jsstring) (r : list (jsstring * list jsstring)) :
  mapM (fun k => vs <- g k ;; Ok (k, vs)) ks = Ok r -> map fst r = ks.
Proof.
  revert r. induction ks as [| k rest IH]; intros r; simpl.
  - now intros [= <-].
  - destruct (g k) as [vs |]; simpl; [| discriminate].
    destruct (mapM _ rest) as [r' |]; simpl; [| discriminate].
    intros [= <-]. simpl. now rewrite (IH r' eq_refl).
Qed.

(** The record [raw] returns has the names of the table as its keys,
    [__proto__] apart. *)
Lemma raw_keys (h h' : Headers.t) (rec : list (jsstring * list jsstring)) :
  Headers.raw h = Ok (h', rec) ->
  forall k, k <> lit "__proto__" -> In k (map fst rec) <-> In k (map fst h).
Proof.
  unfold Headers.raw.
  change (Headers.keys h) with (Headers.USP.sort h, snd (Headers.keys h)).
  cbv iota beta.
  destruct (mapM _ (snd (Headers.keys h))) as [r |] eqn:Hr; simpl; [| discriminate].
  intros [= <- <-] k Hk. apply mapM_keys in Hr.
  rewrite <- (proj2 (proj2 (keys_spec h)) k), <- Hr.
  split; intros H; apply in_map_iff in H; destruct H as (e & <- & He);
    apply in_map.
  - apply (Permutation_in _ (property_order_perm _ _)) in He.
    now apply assigned_In in He.
  - apply (Permutation_in _ (Permutation_sym (property_order_perm _ _))).
    now apply assigned_In.
Qed.

Lemma attempt_sent (P : Sent -> Prop)
      (recurse : Request.t -> State -> Outcome * State)
      (ex : Exchange) (r : Request.t) (st : State) :
  (forall q h h' raw chunk,
      prepare_headers version q = Ok h -> Headers.raw h = Ok (h', raw) ->
      P {| sent_by := with_headers q h'; sent_headers := raw; sent_body := chunk |}) ->
  (forall q s, exists new, log (snd (recurse q s)) = log s ++ new /\ Forall P new) ->
  exists new,
    log (snd (attempt version recurse ex r st)) = log st ++ new /\ Forall P new.
Proof.
  intros HP IH. unfold attempt.
  assert (Z0 : exists new, log st = log st ++ new /\ Forall P new)
    by (exists []; rewrite app_nil_r; split; [reflexivity | constructor]).
  destruct (prepare_headers version r) as [h |] eqn:Hprep; [| exact Z0].
  destruct (Headers.raw h) as [[h' raw] |] eqn:Hraw; [| exact Z0].
  cbv zeta.
  destruct (match _signal (with_headers r h') with
            | Some s => aborted s
            | None => false
            end); [exact Z0 |].
  destruct (written (_body (with_headers r h'))) as [chunk |]; [| exact Z0].
  destruct (match chunk with
            | Some c => negb (writable c)
            | None => false
            end) eqn:Hwrite; [exact Z0 |].
  set (first := {| sent_by := with_headers r h'; sent_headers := raw;
                   sent_body := chunk |}).
  assert (Pfirst : P first) by (apply (HP r h h' raw chunk); assumption).
  assert (One : exists new, log st ++ [first] = log st ++ new /\ Forall P new)
    by (exists [first]; split; [reflexivity | now repeat constructor]).
  destruct ex as [msg | x |]; [| exact One | exact One].
  destruct (Headers.fromRawHeaders (Response.rawHeaders msg)) as [headers |];
    [| exact One].
  destruct (Headers.get headers (lit "Location")) as [location |]; [| exact One].
  match goal with
  | |- context [if ?c then _ else _] => destruct c
  end.
  - match goal with
    | |- context [Request.new ?u ?o ?d] =>
        destruct (Request.new u o d) as [[req | e'] d']
    end; [| exact One].
    match goal with
    | |- context [recurse ?q ?s] =>
        specialize (IH q s); destruct (recurse q s) as [o st']
    end.
    destruct IH as (new & Hlog & Hall). simpl in Hlog.
    assert (Hres : exists new', log st' = log st ++ new' /\ Forall P new').
    { exists (first :: new). rewrite Hlog, <- app_assoc.
      split; [reflexivity | now constructor]. }
    destruct o; exact Hres.
  - destruct (Response.ending msg); exact One.
Qed.

Lemma exec_sent (P : Sent -> Prop) :
  (forall q h h' raw chunk,
      prepare_headers version q = Ok h -> Headers.raw h = Ok (h', raw) ->
      P {| sent_by := with_headers q h'; sent_headers := raw; sent_body := chunk |}) ->
  forall script r st,
    exists new,
      log (snd (exec version script r st)) = log st ++ new /\ Forall P new.
Proof.
  intros HP. induction script as [| ex rest IH]; intros r st; simpl.
  - apply attempt_sent; [exact HP |]. intros q s. exists [].
    rewrite app_nil_r. split; [reflexivity | constructor].
  - apply attempt_sent; [exact HP | exact (IH)].
Qed.

End EngineMore.

(** X15.  The blob of a response is a payload that keeps the size
    invariant and reads back as the buffer of the response; for a response
    that a run resolves with, these are the chunks of its message. *)
Theorem response_blob_reads_buffer (version : jsstring) :
  (forall r, wf (Response.blob r)
             /\ Blob.size (Response.blob r) = Z.of_nat (length (Response._buf r))
             /\ Blob.data (Response.blob r) = Ok (Response._buf r))
  /\ (forall script r st,
         match fst (Engine.exec version script r st) with
         | Engine.Resolved res =>
             Blob.data (Response.blob res)
             = Ok (concat (Response.chunks (Response.message res)))
         | _ => True
         end).
Proof.
  assert (B : forall r, wf (Response.blob r)
                        /\ Blob.size (Response.blob r)
                           = Z.of_nat (length (Response._buf r))
                        /\ Blob.data (Response.blob r) = Ok (Response._buf r)).
  { intros r. unfold Response.blob.
    set (ty := Some _).
    assert (Hin : Forall input_wf [Blob.InBuffer (Response._buf r)])
      by (repeat constructor).
    pose proof (new_wf _ ty Hin) as Hwf.
    pose proof (wf_content_length _ Hwf) as Hlen.
    pose proof (new_content [Blob.InBuffer (Response._buf r)] ty) as Hc.
    simpl flat_map in Hc. rewrite app_nil_r in Hc. rewrite Hc in Hlen.
    split; [exact Hwf |]. split; [now symmetry |].
    rewrite data_exact by (rewrite Hc; exact Hlen). now rewrite Hc. }
  split; [exact B |].
  intros script r st. pose proof (exec_buffer version script r st) as H.
  destruct (fst (Engine.exec version script r st)); auto.
  simpl in H. rewrite <- H. apply B.
Qed.

(** X16.  While the follow option is falsy, one run sends one request
    at most, and when it resolves, it does so with the message of the
    first exchange, whatever location that message names. *)
Theorem no_follow_one_request (version : jsstring)
        (script : list Engine.Exchange) (r : Request.t) (st : Engine.State)
        (Hoff : Request.truthy_follow
                  (Request.read (Request.follow (Engine.defaults st))) = false) :
  (length (Engine.log (snd (Engine.exec version script r st)))
   <= S (length (Engine.log st)))%nat
  /\ match fst (Engine.exec version script r st) with
     | Engine.Resolved res =>
         exists rest, script = Engine.Respond (Response.message res) :: rest
     | _ => True
     end.
Proof.
  destruct script as [| ex rest]; simpl.
  - destruct (attempt_no_follow version (fun _ s => (Engine.Pending, s))
                                Engine.Silent r st Hoff) as [H1 H2].
    split; [exact H1 |].
    destruct (fst (Engine.attempt version _ Engine.Silent r st)); auto.
    discriminate.
  - destruct (attempt_no_follow version (Engine.exec version rest) ex r st Hoff)
      as [H1 H2].
    split; [exact H1 |].
    destruct (fst (Engine.attempt version _ ex r st)); auto.
    exists rest. now rewrite H2.
Qed.

Lemma no_follow_one_request_witness :
  Request.truthy_follow
    (Request.read (Request.follow (Engine.defaults (fresh Request.defaultRequestOptions))))
  = false
  /\ (length (Engine.log (snd (Engine.exec [] five_redirects example_request
                                           (fresh Request.defaultRequestOptions))))
      <= S (length (Engine.log (fresh Request.defaultRequestOptions))))%nat.
Proof.
  split; [reflexivity |].
  exact (proj1 (no_follow_one_request [] five_redirects example_request
                                      (fresh Request.defaultRequestOptions) eq_refl)).
Defined.

(** X17.  A rejection always concerns the request the call was made
    on: an abort error says its signal was aborted, a timeout error names
    its URL, a transport error is the failure of the first exchange, and
    an HTTP error is the stream error of the first response, with its
    status.  What goes wrong after a redirect is never reported so. *)
Theorem rejection_concerns_first_request (version : jsstring)
        (script : list Engine.Exchange) (r : Request.t) (st : Engine.State)
        (e : Engine.Error)
        (Hrejected : fst (Engine.exec version script r st) = Engine.Rejected e) :
  rejection_of script r e.
Proof.
  destruct script as [| ex rest]; simpl in Hrejected;
    apply attempt_rejection in Hrejected; destruct e; simpl; auto.
  - destruct Hrejected as (_ & msg & Hex & _). discriminate.
  - discriminate.
  - destruct Hrejected as (Hu & msg & -> & Hend & Hcode).
    split; [exact Hu |]. now exists msg, rest.
  - subst ex. now exists rest.
Qed.

Lemma rejection_concerns_first_request_witness :
  fst (Engine.exec [] [Engine.Fail (lit "ECONNREFUSED")] example_request
                   (fresh Request.defaultRequestOptions))
  = Engine.Rejected (Engine.TransportError (lit "ECONNREFUSED"))
  /\ rejection_of [Engine.Fail (lit "ECONNREFUSED")] example_request
                  (Engine.TransportError (lit "ECONNREFUSED")).
Proof.
  assert (H : fst (Engine.exec [] [Engine.Fail (lit "ECONNREFUSED")] example_request
                               (fresh Request.defaultRequestOptions))
              = Engine.Rejected (Engine.TransportError (lit "ECONNREFUSED")))
    by (vm_compute; reflexivity).
  split; [exact H |].
  exact (rejection_concerns_first_request [] _ _ _ _ H).
Defined.

(** X18.  The requests one run makes for redirects carry the body of the
    request the run was called on, but the method of the shared options,
    not the method of that request; and the run leaves the method of the
    options as it was. *)
Theorem redirect_takes_method_from_options (version : jsstring)
        (script : list Engine.Exchange) (r : Request.t) (st : Engine.State) :
  Request.method (Engine.defaults (snd (Engine.exec version script r st)))
  = Request.method (Engine.defaults st)
  /\ exists new,
      Engine.log (snd (Engine.exec version script r st)) = Engine.log st ++ new
      /\ hops r (Engine.defaults st) new.
Proof. exact (exec_hops version script r st). Qed.

(** X19.  Every request a run sends, the first one and those made for
    redirects, has a user-agent among the headers handed to the transport,
    and a content-type too when its body is truthy and an object. *)
Theorem every_request_announced (version : jsstring)
        (script : list Engine.Exchange) (r : Request.t) (st : Engine.State) :
  exists new,
    Engine.log (snd (Engine.exec version script r st)) = Engine.log st ++ new
    /\ Forall announced new.
Proof.
  apply exec_sent. intros q h h' raw chunk Hprep Hraw.
  destruct (prepare_headers_has version q h Hprep) as [Hua Hct].
  pose proof (raw_keys h h' raw Hraw) as Hk.
  unfold announced. simpl. split.
  - apply Hk; [vm_compute; discriminate |]. apply usp_has_In, Hua.
  - destruct (Request._body q) as [b |]; [| exact I].
    intros Hb Ho. apply Hk; [vm_compute; discriminate |].
    apply usp_has_In. now apply Hct.
Qed.

(** X20.  [follow] with a count other than 0 sets the count; with no
    count, or with 0, it replaces the option by the negation of its
    truthiness, so that a count given before is lost and two calls in a
    row restore the truthiness, not the count. *)
Theorem follow_sets_or_toggles (d : Request.RequestData) :
  (forall n, n <> 0%Z ->
             Request.follow (Request.set_follow (Some n) d)
             = Request.Val (Request.FNum n))
  /\ Request.set_follow (Some 0%Z) d = Request.set_follow None d
  /\ Request.follow (Request.set_follow None d)
     = Request.Val (Request.FBool
                      (negb (Request.truthy_follow (Request.read (Request.follow d)))))
  /\ Request.follow (Request.set_follow None (Request.set_follow None d))
     = Request.Val (Request.FBool
                      (Request.truthy_follow (Request.read (Request.follow d)))).
Proof.
  split; [| split; [| split]].
  - intros n Hn. unfold Request.set_follow. simpl.
    apply Z.eqb_neq in Hn. now rewrite Hn.
  - reflexivity.
  - reflexivity.
  - unfold Request.set_follow. simpl. now rewrite negb_involutive.
Qed.

Section ClientFacts.

Import Request.

Variable version : jsstring.
Variables pathname href : URL -> jsstring.

Lemma make_shared (url : Client.Target) (o : RequestData) (c : Client.t)
      (shared : RequestData) :
  snd (Client.make pathname href url o c shared)
  = assign shared (assign o (Client.defaults c)).
Proof.
  unfold Client.make. cbv zeta.
  rewrite (surjective_pairing (Request.new _ _ _)), new_request_defaults.
  now destruct (fst (Request.new _ _ _)).
Qed.

Lemma make_Ok (url : Client.Target) (o : RequestData) (c c' : Client.t)
      (shared shared' : RequestData) (req : Request.t) :
  Client.make pathname href url o c shared = (Ok req, c', shared') ->
  exists req0,
    Request.new (Client.to_url (Client.locate pathname href (Client.baseUrl c) url))
                (assign o (Client.defaults c)) shared = (Ok req0, shared')
    /\ _method req = _method req0 /\ _body req = _body req0
    /\ match Client.userAgent c with
       | _ :: _ =>
           exists h, Headers.append (_headers req0) (lit "user-agent")
                                    (Client.userAgent c) = Ok h
                     /\ _headers req = h
       | [] => req = req0
       end.
Proof.
  unfold Client.make. cbv zeta.
  destruct (Request.new _ _ _) as [[req0 | e] d'] eqn:Hnew; [| discriminate].
  destruct (Client.userAgent c) as [| a ua].
  - intros H. injection H as H1 _ H3. subst req0 d'. exists req. repeat split.
  - destruct (Headers.append _ _ _) as [h |] eqn:Happ; simpl; [| discriminate].
    intros H. injection H as H1 _ H3. subst req d'. exists req0. repeat split.
    now exists h.
Qed.

Lemma new_request_headers (u : URL) (o d d' : RequestData) (req : Request.t) :
  Request.new u o d = (Ok req, d') ->
  Headers.new (headers_init (assign d o)) = Ok (_headers req).
Proof.
  unfold Request.new, headers_init. cbv zeta.
  destruct (Headers.new _) as [h |]; simpl; [| discriminate].
  now intros [= <- _].
Qed.

Lemma assign_slot_Val {A} (target : slot A) (a : A) :
  assign_slot target (Val a) = Val a.
Proof. reflexivity. Qed.

Lemma sorted_snoc (l : list Z) (y : Z) :
  StronglySorted Z.lt l -> Forall (fun x => (x < y)%Z) l ->
  StronglySorted Z.lt (l ++ [y]).
Proof.
  induction 1 as [| x l Hs IH Hx]; intros Hy; simpl.
  - repeat constructor.
  - inversion Hy; subst. constructor; [now apply IH |].
    apply Forall_app. split; [exact Hx | now repeat constructor].
Qed.

Lemma make_numbered (url : Client.Target) (o : RequestData) (c : Client.t)
      (shared : RequestData) :
  numbered c ->
  Client.requests (snd (fst (Client.make pathname href url o c shared)))
  = (Client.requests c + 1)%Z
  /\ numbered (snd (fst (Client.make pathname href url o c shared)))
  /\ (length (Client.emitted (snd (fst (Client.make pathname href url o c shared))))
      <= S (length (Client.emitted c)))%nat.
Proof.
  intros (H0 & Hs & Hb). unfold Client.make. cbv zeta.
  destruct (Request.new _ _ _) as [[req0 | e] d']; simpl.
  - split; [reflexivity |]. split.
    + unfold numbered. simpl. split; [lia |]. split.
      * rewrite map_app. simpl. apply sorted_snoc; [exact Hs |].
        rewrite Forall_map. eapply Forall_impl; [| exact Hb].
        simpl. intros ev H. lia.
      * apply Forall_app. split.
        -- eapply Forall_impl; [| exact Hb]. simpl. intros ev H. lia.
        -- repeat constructor; simpl; lia.
    + rewrite length_app. simpl. lia.
  - split; [reflexivity |]. split; [| lia].
    unfold numbered. simpl. split; [lia |]. split; [exact Hs |].
    eapply Forall_impl; [| exact Hb]. simpl. intros ev H. lia.
Qed.

Lemma make_all_numbered (calls : list (Client.Target * RequestData)) :
  forall c shared,
    numbered c ->
    Client.requests (fst (make_all pathname href calls c shared))
    = (Client.requests c + Z.of_nat (length calls))%Z
    /\ numbered (fst (make_all pathname href calls c shared))
    /\ (length (Client.emitted (fst (make_all pathname href calls c shared)))
        <= length (Client.emitted c) + length calls)%nat.
Proof.
  unfold make_all.
  induction calls as [| call rest IH]; intros c shared Hc.
  - simpl. repeat split; try lia; apply Hc.
  - cbn [fold_left fst snd length].
    pose proof (make_numbered (fst call) (snd call) c shared Hc) as (H1 & H2 & H3).
    destruct (Client.make pathname href (fst call) (snd call) c shared)
      as [[res c1] shared1].
    simpl in H1, H2, H3.
    destruct (IH c1 shared1 H2) as (I1 & I2 & I3).
    split; [rewrite I1, H1; lia |]. split; [exact I2 | lia].
Qed.

Lemma join_last (sep : jsstring) (olds : list jsstring) (v : jsstring) :
  v <> [] -> join sep (olds ++ [v]) <> [].
Proof.
  intros Hv. induction olds as [| x rest IH]; simpl; [exact Hv |].
  destruct (rest ++ [v]) as [| y r] eqn:E.
  - now destruct rest.
  - intros H. apply app_eq_nil in H. destruct H as [_ H].
    apply app_eq_nil in H. destruct H as [_ H]. now apply IH.
Qed.

Lemma prepare_headers_agent (r : Request.t) (h : Headers.t)
      (olds : list jsstring) (v : jsstring) :
  Headers.USP.getAll (_headers r) (lit "user-agent") = olds ++ [v] ->
  v <> [] ->
  Engine.prepare_headers version r = Ok h ->
  Headers.USP.getAll h (lit "user-agent") = olds ++ [v].
Proof.
  intros Hall Hv. unfold Engine.prepare_headers. cbv zeta.
  assert (Hget : Headers.get (_headers r) (lit "user-agent")
                 = Ok (Some (join (lit ", ") (olds ++ [v])))).
  { unfold Headers.get. rewrite getAll_token by reflexivity.
    change (toLowerCase (lit "user-agent")) with (lit "user-agent").
    rewrite Hall. simpl. destruct (olds ++ [v]) eqn:E; [now destruct olds |].
    reflexivity. }
  assert (Ht : truthy_string (Some (join (lit ", ") (olds ++ [v]))) = true).
  { pose proof (join_last (lit ", ") olds v Hv) as N.
    destruct (join (lit ", ") (olds ++ [v])); [contradiction | reflexivity]. }
  rewrite Hget. cbn [bind]. rewrite Ht. cbn [bind].
  destruct (Headers.get (_headers r) (lit "content-type")) as [ct |]; simpl;
    [| discriminate].
  destruct (negb (truthy_string ct) && truthy_body (_body r)).
  - destruct (_body r) as [b |]; [| now intros [= <-]].
    destruct (Engine.isObject b); [| now intros [= <-]].
    rewrite append_Ok by reflexivity. intros [= <-].
    rewrite usp_getAll_append. simpl. now rewrite app_nil_r.
  - now intros [= <-].
Qed.

End ClientFacts.

(** X21.  The defaults of a client take precedence over the options of
    the call: when they give a method and a body, the request [make]
    returns has that method and that body whatever the call asks for, and
    the shared defaults of the module hold them afterwards. *)
Theorem client_defaults_win (pathname href : Request.URL -> jsstring)
        (url : Client.Target) (o : Request.RequestData) (c : Client.t)
        (shared : Request.RequestData) (m : Request.Method) (b : Request.Body)
        (Hm : Request.method (Client.defaults c) = Request.Val m)
        (Hb : Request.body (Client.defaults c) = Request.Val b) :
  Request.method (snd (Client.make pathname href url o c shared)) = Request.Val m
  /\ Request.body (snd (Client.make pathname href url o c shared)) = Request.Val b
  /\ match fst (fst (Client.make pathname href url o c shared)) with
     | Ok req => Request._method req = m /\ Request._body req = Some b
     | Throw _ => True
     end.
Proof.
  assert (Hs : Request.method (Request.assign shared (Request.assign o (Client.defaults c)))
               = Request.Val m
               /\ Request.body (Request.assign shared (Request.assign o (Client.defaults c)))
                  = Request.Val b).
  { simpl. now rewrite Hm, Hb. }
  rewrite make_shared. split; [apply Hs |]. split; [apply Hs |].
  destruct (Client.make pathname href url o c shared) as [[[req |] c'] shared']
    eqn:Hmake; simpl; [| exact I].
  destruct (make_Ok _ _ _ _ _ _ _ _ _ Hmake) as (req0 & Hnew & Hmeth & Hbody & _).
  destruct (new_request _ _ _ _ _ Hnew) as (_ & Hm0 & Hb0).
  rewrite Hmeth, Hbody, Hm0, Hb0. unfold options_method.
  destruct Hs as [-> ->]. now split.
Qed.

Lemma client_defaults_win_witness :
  Request.method (Client.defaults (Client.new (lit "1.0.0") None
                                              (Some compressing_defaults) None))
  = Request.Val Request.GET
  /\ Request.body (Client.defaults (Client.new (lit "1.0.0") None
                                               (Some compressing_defaults) None))
     = Request.Val Request.BNull
  /\ Request.method
       (snd (Client.make (fun _ => []) (fun _ => [])
                         (Client.TString (lit "http://example.com/"))
                         posting
                         (Client.new (lit "1.0.0") None (Some compressing_defaults) None)
                         Request.defaultRequestOptions))
     = Request.Val Request.GET.
Proof.
  split; [reflexivity |]. split; [reflexivity |].
  exact (proj1 (client_defaults_win (fun _ => []) (fun _ => [])
                 (Client.TString (lit "http://example.com/")) posting
                 (Client.new (lit "1.0.0") None (Some compressing_defaults) None)
                 Request.defaultRequestOptions Request.GET Request.BNull
                 eq_refl eq_refl)).
Defined.

(** X22.  A shorthand of the client sends its first request with the
    method of the shorthand, and every request made for a redirect with
    the method of the merged options: the one of the defaults of the
    client if they have one, else the one of the call, else the one of
    the shared defaults. *)
Theorem shorthand_method_first_only (version : jsstring)
        (pathname href : Request.URL -> jsstring)
        (script : list Engine.Exchange) (m0 : Request.Method) (path : jsstring)
        (o : Request.RequestData) (c : Client.t) (st : Engine.State) :
  exists new,
    Engine.log (snd (Client.shorthand version pathname href script m0 path o c st))
    = Engine.log st ++ new
    /\ first_only m0
         (options_method
            (Request.assign (Engine.defaults st)
                            (Request.assign o (Client.defaults c))))
         new.
Proof.
  unfold Client.shorthand.
  pose proof (make_shared pathname href (Client.TString path) o c
                          (Engine.defaults st)) as Hshared.
  destruct (Client.make pathname href (Client.TString path) o c (Engine.defaults st))
    as [[[req | e] c'] shared'].
  - simpl in Hshared. subst shared'.
    match goal with
    | |- context [Engine.exec version script ?q ?s] =>
        pose proof (exec_hops version script q s) as (_ & new & Hlog & Hh);
        destruct (Engine.exec version script q s) as [out st']
    end.
    simpl in *. exists new. split; [exact Hlog |].
    destruct new as [| first more]; [exact I |].
    destruct Hh as (H1 & _ & H3). split; [exact H1 |].
    eapply Forall_impl; [| exact H3]. simpl. now intros s [H _].
  - simpl. exists []. rewrite app_nil_r. now split.
Qed.

(** X23.  After any sequence of calls of [make] on a new client, the
    counter is the number of the calls, those that threw among them, and
    the debug events emitted, at most one for each call, have numbers
    that grow and lie between 1 and the counter. *)
Theorem make_counts_every_call (version : jsstring)
        (pathname href : Request.URL -> jsstring)
        (userAgent : option jsstring) (defaults : option Request.RequestData)
        (baseUrl : option jsstring)
        (calls : list (Client.Target * Request.RequestData))
        (shared : Request.RequestData) :
  Client.requests (fst (make_all pathname href calls
                                 (Client.new version userAgent defaults baseUrl)
                                 shared))
  = Z.of_nat (length calls)
  /\ numbered (fst (make_all pathname href calls
                             (Client.new version userAgent defaults baseUrl)
                             shared))
  /\ (length (Client.emitted (fst (make_all pathname href calls
                                            (Client.new version userAgent defaults
                                                        baseUrl)
                                            shared)))
      <= length calls)%nat.
Proof.
  assert (H0 : numbered (Client.new version userAgent defaults baseUrl)).
  { unfold numbered. simpl. split; [lia |]. split; constructor. }
  destruct (make_all_numbered pathname href calls _ shared H0) as (H1 & H2 & H3).
  split; [rewrite H1; simpl; lia |]. split; [exact H2 | exact H3].
Qed.

(** X24.  A request made by a client with a user agent holds the
    headers the merged options gave and, appended to them, that agent: it
    is the last value of the user-agent header, after those the options
    gave, and the values of every other name are those of the options.
    [exec] leaves the values of the user-agent as they are: the default
    agent of the library is not used for it. *)
Theorem client_agent_appended (version : jsstring)
        (pathname href : Request.URL -> jsstring)
        (url : Client.Target) (o : Request.RequestData) (c : Client.t)
        (shared : Request.RequestData)
        (Hagent : Client.userAgent c <> []) :
  match fst (fst (Client.make pathname href url o c shared)) with
  | Ok req =>
      exists given,
        Headers.new (headers_init
                       (Request.assign shared
                                       (Request.assign o (Client.defaults c))))
        = Ok given
        /\ Request._headers req
           = given ++ [(lit "user-agent", Client.userAgent c)]
        /\ Headers.USP.getAll (Request._headers req) (lit "user-agent")
           = Headers.USP.getAll given (lit "user-agent") ++ [Client.userAgent c]
        /\ (forall name,
               name <> lit "user-agent" ->
               Headers.USP.getAll (Request._headers req) name
               = Headers.USP.getAll given name)
        /\ match Engine.prepare_headers version req with
           | Ok h =>
               Headers.USP.getAll h (lit "user-agent")
               = Headers.USP.getAll given (lit "user-agent")
                 ++ [Client.userAgent c]
           | Throw _ => True
           end
  | Throw _ => True
  end.
Proof.
  destruct (Client.make pathname href url o c shared) as [[[req |] c'] shared']
    eqn:Hmake; simpl; [| exact I].
  destruct (make_Ok _ _ _ _ _ _ _ _ _ Hmake) as (req0 & Hnew & _ & _ & Hua).
  apply new_request_headers in Hnew.
  destruct (Client.userAgent c) as [| a ua] eqn:E; [contradiction |].
  destruct Hua as (h1 & Happ & Hh).
  unfold Headers.append, Headers.validateHeaderName in Happ.
  change (Headers.is_token (lit "user-agent")) with true in Happ. simpl in Happ.
  destruct (Headers.validateHeaderValue _ _); simpl in Happ; [| discriminate].
  injection Happ as <-.
  change (toLowerCase (lit "user-agent")) with (lit "user-agent") in Hh.
  exists (Request._headers req0).
  assert (Hall : Headers.USP.getAll (Request._headers req) (lit "user-agent")
                 = Headers.USP.getAll (Request._headers req0) (lit "user-agent")
                   ++ [a :: ua]).
  { rewrite Hh. now rewrite usp_getAll_append, jsstring_eqb_refl. }
  split; [exact Hnew |]. split; [exact Hh |]. split; [exact Hall |]. split.
  - intros name Hname. rewrite Hh, usp_getAll_append.
    destruct (jsstring_eqb _ name) eqn:E2; [| apply app_nil_r].
    apply jsstring_eqb_eq in E2. exfalso. apply Hname. symmetry. exact E2.
  - destruct (Engine.prepare_headers version req) as [h |] eqn:Hprep; [| exact I].
    exact (prepare_headers_agent version req h _ _ Hall Hagent Hprep).
Qed.

Lemma client_agent_appended_witness :
  Client.userAgent (Client.new (lit "1.0.0") None None None) <> []
  /\ match fst (fst (Client.make (fun _ => []) (fun _ => [])
                                 (Client.TString (lit "http://example.com/"))
                                 capped_defaults
                                 (Client.new (lit "1.0.0") None None None)
                                 Request.defaultRequestOptions)) with
     | Ok req =>
         exists given,
           Headers.new (headers_init
                          (Request.assign Request.defaultRequestOptions
                             (Request.assign capped_defaults
                                (Client.defaults
                                   (Client.new (lit "1.0.0") None None None)))))
           = Ok given
           /\ Request._headers req
              = given ++ [(lit "user-agent",
                           Engine.RIKUESUTO_USER_AGENT (lit "1.0.0"))]
           /\ Headers.USP.getAll (Request._headers req) (lit "user-agent")
              = Headers.USP.getAll given (lit "user-agent")
                ++ [Engine.RIKUESUTO_USER_AGENT (lit "1.0.0")]
           /\ (forall name,
                  name <> lit "user-agent" ->
                  Headers.USP.getAll (Request._headers req) name
                  = Headers.USP.getAll given name)
           /\ match Engine.prepare_headers (lit "1.0.0") req with
              | Ok h =>
                  Headers.USP.getAll h (lit "user-agent")
                  = Headers.USP.getAll given (lit "user-agent")
                    ++ [Engine.RIKUESUTO_USER_AGENT (lit "1.0.0")]
              | Throw _ => True
              end
     | Throw _ => True
     end.
Proof.
  split; [discriminate |].
  apply (client_agent_appended (lit "1.0.0") (fun _ => []) (fun _ => [])
           (Client.TString (lit "http://example.com/")) capped_defaults
           (Client.new (lit "1.0.0") None None None)
           Request.defaultRequestOptions).
  discriminate.
Defined.


